(** * ChessGame: the computer opponent, the evaluator and the game controller

    A shallow embedding of [src/components/ChessGame.tsx].  The React
    component keeps four pieces of state ([game], [difficulty], [showHint],
    [hintMove]); its handlers are closures over the values of the render
    in which they were created, and they act on the state only through the
    setters and through [setTimeout].  The rules engine ([chess.js]) is an
    external library: it is an interface here ([ChessEngine]), and the
    theorems hold for every implementation of it.

    Numbers.  The evaluator and the selection are embedded twice.  In
    the component [evaluatePosition] adds integers, and the draws of
    [Math.random] and the noisy scores are exact rationals; what is
    stated of it (which moves can be returned, what is stored and
    scheduled, bounds on integer evaluations) does not depend on the
    rounding of a product or of a sum.  In [Binary64] the same loops run
    on the binary64 numbers of JavaScript, rounding included; what is
    stated of the scores themselves is stated there.  On a board of at
    most 64 pieces the two evaluations agree
    ([Binary64Facts.evaluatePosition_toNumber]). *)

From Stdlib Require Import List String Ascii ZArith QArith Qround Bool Lia Lqa.
From Stdlib Require Import Permutation.
From Stdlib Require PrimFloat SpecFloat FloatOps FloatAxioms.
From Corelib Require Uint63Axioms.
Import ListNotations.

Local Open Scope Z_scope.

(** ** JavaScript effects: exceptions and [Math.random] *)

Module Js.

(** What a call yields: a value, or an exception that propagates. *)
Inductive Outcome (A : Type) : Type :=
| Returned (a : A)
| Thrown.
Arguments Returned {A} a.
Arguments Thrown {A}.

(** [Math.random()] returns a number at least 0 and below 1.  A draw
    carries that range; the numbers are exact rationals. *)
Definition in_unit_interval (x : Q) : bool :=
  Qle_bool 0 x && negb (Qle_bool 1 x).

Record Draw : Type := mkDraw {
  draw_value : Q;
  draw_range : in_unit_interval draw_value = true
}.

(** The random source: the sequence of draws and how many of them have
    been consumed. *)
Record Entropy : Type := mkEntropy {
  source : nat -> Draw;
  cursor : nat
}.

Definition advance (n : nat) (e : Entropy) : Entropy :=
  mkEntropy (source e) (cursor e + n).

(** A computation reads and advances the random source and may throw. *)
Definition M (A : Type) : Type := Entropy -> Outcome A * Entropy.

Definition ret {A} (a : A) : M A := fun e => (Returned a, e).

Definition bind {A B} (c : M A) (f : A -> M B) : M B :=
  fun e =>
    match c e with
    | (Returned a, e') => f a e'
    | (Thrown, e') => (Thrown, e')
    end.

Definition throw {A} : M A := fun e => (Thrown, e).

(** [try { body } catch (error) { handler }] *)
Definition try_catch {A} (body handler : M A) : M A :=
  fun e =>
    match body e with
    | (Returned a, e') => (Returned a, e')
    | (Thrown, e') => handler e'
    end.

Definition Math_random : M Q :=
  fun e => (Returned (draw_value (source e (cursor e))), advance 1 e).

(** A JavaScript number as far as [findBestMove] needs it: [-Infinity]
    or a finite value. *)
Inductive Num : Type :=
| NegInfinity
| Fin (x : Q).

(** [value > bestValue] *)
Definition gt (value : Q) (bestValue : Num) : bool :=
  match bestValue with
  | NegInfinity => true
  | Fin x => negb (Qle_bool value x)
  end.

(** [Math.floor(x)] of a non-negative [x], as an array index. *)
Definition Math_floor (x : Q) : nat := Z.to_nat (Qfloor x).

End Js.

Import Js.

Declare Scope js_scope.
Delimit Scope js_scope with js.
Notation "x <- c ;; k" := (Js.bind c (fun x => k))
  (at level 61, c at next level, right associativity) : js_scope.

(** ** Pieces and the board *)

Inductive Color : Type := White | Black.

(** The piece letters of the engine: p, n, b, r, q, k. *)
Inductive PieceSymbol : Type := Pawn | Knight | Bishop | Rook | Queen | King.

Record Piece : Type := mkPiece {
  color : Color;
  type : PieceSymbol
}.

(** [game.board()]: eight rows from rank 8 down to rank 1, each of eight
    squares from file a to file h, a square holding a piece or [null]. *)
Definition Board : Type := list (list (option Piece)).

(** ** The rules engine *)

(** The argument of [.move()]: a move in standard algebraic notation,
    [undefined], or an object [{from, to, promotion}]. *)
Inductive MoveArg : Type :=
| San (move : string)
| Undefined
| FromTo (from to promotion : string).

(** What [.move()] does: it plays the move on the instance, or returns
    [null] and leaves the instance as it was, or throws. *)
Inductive MoveResult (C : Type) : Type :=
| Moved (c : C)
| Null
| Raised.
Arguments Moved {C} c.
Arguments Null {C}.
Arguments Raised {C}.

Class ChessEngine : Type := {
  (** the state of one [Chess] instance *)
  Chess : Type;
  (** [new Chess()] *)
  newChess : Chess;
  (** [new Chess(fen)]; [None] when the constructor throws *)
  loadFen : string -> option Chess;
  (** [game.fen()] *)
  fen : Chess -> string;
  (** [game.moves()], in the engine's order *)
  moves : Chess -> list string;
  (** [game.move(...)] *)
  move : Chess -> MoveArg -> MoveResult Chess;
  (** [game.isGameOver()] *)
  isGameOver : Chess -> bool;
  (** [game.board()] *)
  board : Chess -> Board
}.

(** ** The component *)

Inductive Difficulty : Type := easy | amateur | pro.

Section Component.

Context {engine : ChessEngine}.

Local Open Scope js_scope.

(** [new Chess(fen)] as a computation. *)
Definition new_Chess (f : string) : Js.M Chess :=
  match loadFen f with
  | Some c => Js.ret c
  | None => Js.throw
  end.

(** [gameCopy.move(arg)]: the instance after the call, and whether the
    call returned a move object rather than [null]. *)
Definition call_move (gameCopy : Chess) (arg : MoveArg) : Js.M (Chess * bool) :=
  match move gameCopy arg with
  | Moved c => Js.ret (c, true)
  | Null => Js.ret (gameCopy, false)
  | Raised => Js.throw
  end.

(** *** evaluatePosition (lines 77-98) *)

Definition pieceValues (t : PieceSymbol) : Z :=
  match t with
  | Pawn => 1
  | Knight => 3
  | Bishop => 3
  | Rook => 5
  | Queen => 9
  | King => 0
  end.

Definition multiplier (c : Color) : Z :=
  match c with
  | White => 1
  | Black => -1
  end.

(** The two nested [forEach] loops, over the rows and over the squares
    of a row, adding into [value]. *)
Definition evaluateRow (value : Z) (row : list (option Piece)) : Z :=
  fold_left
    (fun value piece =>
       match piece with
       | Some pc => value + pieceValues (type pc) * multiplier (color pc)
       | None => value
       end)
    row value.

Definition evaluateBoard (b : Board) : Z := fold_left evaluateRow b 0.

Definition evaluatePosition (game : Chess) : Z := evaluateBoard (board game).

(** *** findBestMove (lines 59-75) *)

(** [depth === 2 ? 2 : 0.5] *)
Definition noiseScale (depth : Z) : Q := if depth =? 2 then 2 else 1 # 2.

(** The body of the loop up to [value]: a copy of the game, the move
    played on it, its evaluation plus the scaled draw. *)
Definition scoreMove (game : Chess) (depth : Z) (mv : string) : Js.M Q :=
  gameCopy <- new_Chess (fen game) ;;
  played <- call_move gameCopy (San mv) ;;
  r <- Js.Math_random ;;
  Js.ret (inject_Z (evaluatePosition (fst played)) + r * noiseScale depth)%Q.

(** [moves.forEach(...)], carrying [bestMove] and [bestValue]. *)
Fixpoint forEachMove (game : Chess) (depth : Z) (ms : list string)
    (best : option string * Js.Num) : Js.M (option string * Js.Num) :=
  match ms with
  | [] => Js.ret best
  | mv :: rest =>
      value <- scoreMove game depth mv ;;
      forEachMove game depth rest
        (if Js.gt value (snd best) then (Some mv, Js.Fin value) else best)
  end.

(** The result is [None] when it is [undefined] ([moves[0]] of an empty
    array). *)
Definition findBestMove (game : Chess) (depth : Z) : Js.M (option string) :=
  let ms := moves game in
  best <- forEachMove game depth ms (nth_error ms 0, Js.NegInfinity) ;;
  Js.ret (fst best).

(** *** The state, the setters and the timers *)

Record State : Type := mkState {
  game : Chess;
  difficulty : Difficulty;
  showHint : bool;
  hintMove : option string
}.

(** A function handed to [setTimeout].  [makeComputerMove] is made by
    [useCallback] in each render from that render's [game] and
    [difficulty] (lines 14 and 37); [onDrop] hands over the one of its
    own render (line 52), so the pending call holds the [game] and the
    [difficulty] that [onDrop] itself read. *)
Inductive Callback : Type :=
| MakeComputerMove (game : Chess) (difficulty : Difficulty)
| HideHint.

Inductive Effect : Type :=
| setGame (g : Chess)
| setDifficulty (d : Difficulty)
| setShowHint (b : bool)
| setHintMove (s : option string)
| setTimeout (cb : Callback).

(** *** makeComputerMove (lines 14-37) *)

(** The [switch] on the difficulty (lines 18-32). *)
Definition chooseMove (game : Chess) (difficulty : Difficulty)
    (possibleMoves : list string) : Js.M (option string) :=
  match difficulty with
  | easy =>
      r <- Js.Math_random ;;
      Js.ret (nth_error possibleMoves
                (Js.Math_floor (r * inject_Z (Z.of_nat (List.length possibleMoves)))))
  | amateur => findBestMove game 2
  | pro => findBestMove game 4
  end.

Definition moveArg (mv : option string) : MoveArg :=
  match mv with
  | Some s => San s
  | None => Undefined
  end.

Definition makeComputerMove (game : Chess) (difficulty : Difficulty)
    : Js.M (list Effect) :=
  let possibleMoves := moves game in
  if isGameOver game || (List.length possibleMoves =? 0)%nat then Js.ret []
  else
    mv <- chooseMove game difficulty possibleMoves ;;
    gameCopy <- new_Chess (fen game) ;;
    played <- call_move gameCopy (moveArg mv) ;;
    Js.ret [setGame (fst played)].

(** *** onDrop (lines 39-57) *)

Definition onDrop (s : State) (sourceSquare targetSquare : string)
    : Js.M (bool * list Effect) :=
  Js.try_catch
    (gameCopy <- new_Chess (fen (game s)) ;;
     played <- call_move gameCopy (FromTo sourceSquare targetSquare "q") ;;
     if snd played
     then Js.ret (true,
                  [setGame (fst played);
                   setTimeout (MakeComputerMove (game s) (difficulty s))])
     else Js.ret (false, []))
    (Js.ret (false, [])).

(** *** getHint (lines 100-105) and resetGame (lines 107-111) *)

Definition getHint (s : State) : Js.M (list Effect) :=
  hint <- findBestMove (game s) 3 ;;
  Js.ret [setHintMove hint; setShowHint true; setTimeout HideHint].

Definition resetGame : list Effect :=
  [setGame newChess; setShowHint false; setHintMove (Some ""%string)].

(** The [onClick] of a difficulty button (lines 124-127). *)
Definition clickDifficulty (d : Difficulty) : list Effect :=
  setDifficulty d :: resetGame.

(** *** The running component *)

Record World : Type := mkWorld {
  ui : State;
  timers : list Callback;
  entropy : Js.Entropy
}.

Definition applyEffect (w : World) (eff : Effect) : World :=
  let s := ui w in
  match eff with
  | setGame g =>
      mkWorld (mkState g (difficulty s) (showHint s) (hintMove s)) (timers w) (entropy w)
  | setDifficulty d =>
      mkWorld (mkState (game s) d (showHint s) (hintMove s)) (timers w) (entropy w)
  | setShowHint b =>
      mkWorld (mkState (game s) (difficulty s) b (hintMove s)) (timers w) (entropy w)
  | setHintMove h =>
      mkWorld (mkState (game s) (difficulty s) (showHint s) h) (timers w) (entropy w)
  | setTimeout cb =>
      mkWorld s (timers w ++ [cb]) (entropy w)
  end.

Definition applyEffects (w : World) (effs : list Effect) : World :=
  fold_left applyEffect effs w.

(** A handler runs against the random source of the world; when it
    throws, nothing was set. *)
Definition runHandler (w : World) (h : Js.M (list Effect)) : World :=
  match h (entropy w) with
  | (Js.Returned effs, e') => applyEffects (mkWorld (ui w) (timers w) e') effs
  | (Js.Thrown, e') => mkWorld (ui w) (timers w) e'
  end.

Definition runCallback (cb : Callback) : Js.M (list Effect) :=
  match cb with
  | MakeComputerMove g d => makeComputerMove g d
  | HideHint => Js.ret [setShowHint false]
  end.

Definition removeTimer (i : nat) (w : World) : World :=
  mkWorld (ui w) (firstn i (timers w) ++ skipn (S i) (timers w)) (entropy w).

(** What happens to the component: the user drops a piece, clicks a
    button, or a pending timer fires. *)
Inductive Event : Type :=
| Drop (sourceSquare targetSquare : string)
| ClickHint
| ClickReset
| ClickDifficulty (d : Difficulty)
| TimerFires (i : nat).

Definition step (w : World) (ev : Event) : World :=
  match ev with
  | Drop src tgt =>
      runHandler w (res <- onDrop (ui w) src tgt ;; Js.ret (snd res))
  | ClickHint => runHandler w (getHint (ui w))
  | ClickReset => runHandler w (Js.ret resetGame)
  | ClickDifficulty d => runHandler w (Js.ret (clickDifficulty d))
  | TimerFires i =>
      match nth_error (timers w) i with
      | Some cb => runHandler (removeTimer i w) (runCallback cb)
      | None => w
      end
  end.

Definition run (w : World) (evs : list Event) : World := fold_left step evs w.

(** The first render: [useState(new Chess())], [useState('easy')],
    [useState(false)], [useState('')]. *)
Definition initialState (d : Difficulty) : State :=
  mkState newChess d false (Some ""%string).

Definition initialWorld (src : nat -> Js.Draw) : World :=
  mkWorld (initialState easy) [] (Js.mkEntropy src 0).

Definition reachable (w : World) : Prop :=
  exists src evs, w = run (initialWorld src) evs.

End Component.

(** ** Vocabulary of the statements *)

Section Vocabulary.

Context {engine : ChessEngine}.

(** The pieces on the occupied squares of a board, row by row. *)
Definition occupiedSquares (b : Board) : list Piece :=
  flat_map (fun row => flat_map (fun sq => match sq with Some pc => [pc] | None => [] end) row) b.

(** The material value of a piece, counted for White and against Black. *)
Definition signedValue (pc : Piece) : Z :=
  match color pc with
  | White => pieceValues (type pc)
  | Black => - pieceValues (type pc)
  end.

Definition sumZ (l : list Z) : Z := fold_right Z.add 0 l.

(** The position a candidate move leads to: the copy made from the
    notation string of [game], after [.move(mv)] was called on it. *)
Definition resultingPosition (game : Chess) (mv : string) : option Chess :=
  match loadFen (fen game) with
  | Some gameCopy =>
      match move gameCopy (San mv) with
      | Moved c => Some c
      | Null => Some gameCopy
      | Raised => None
      end
  | None => None
  end.

(** The engine plays every move it lists for [game] on a copy of [game]
    without throwing. *)
Definition playsItsMoves (game : Chess) : Prop :=
  forall mv, In mv (moves game) -> resultingPosition game mv <> None.

(** The evaluation of the position reached by the [i]-th listed move. *)
Definition evaluationAfter (game : Chess) (i : nat) : Z :=
  match nth_error (moves game) i with
  | Some mv =>
      match resultingPosition game mv with
      | Some c => evaluatePosition c
      | None => 0
      end
  | None => 0
  end.

(** The noise added to the [i]-th listed move when the selection starts
    at the random source [e]: the [i]-th draw from there, scaled. *)
Definition noiseAt (scale : Q) (e : Js.Entropy) (i : nat) : Q :=
  (Js.draw_value (Js.source e (Js.cursor e + i)) * scale)%Q.

(** The noisy score of the [i]-th listed move. *)
Definition noisyScore (game : Chess) (scale : Q) (e : Js.Entropy) (i : nat) : Q :=
  (inject_Z (evaluationAfter game i) + noiseAt scale e i)%Q.

(** [found] is the [i]-th listed move, its score is at least every
    other candidate's and strictly above every earlier candidate's. *)
Definition firstBest (game : Chess) (scale : Q) (e : Js.Entropy)
    (i : nat) (found : string) : Prop :=
  nth_error (moves game) i = Some found
  /\ (forall j, (j < List.length (moves game))%nat ->
        (noisyScore game scale e j <= noisyScore game scale e i)%Q)
  /\ (forall j, (j < i)%nat ->
        (noisyScore game scale e j < noisyScore game scale e i)%Q).

(** The position is terminal for the opponent step: the game is over or
    there is no legal move (the guard of line 16). *)
Definition terminal (game : Chess) : Prop :=
  isGameOver game = true \/ moves game = [].

(** What the loop of [findBestMove] holds after the first [n] listed
    moves: nothing yet, or the first best among them with its score. *)
Definition bestSoFar (game : Chess) (scale : Q) (e : Js.Entropy) (n : nat)
    (best : option string * Js.Num) : Prop :=
  match n with
  | O => snd best = Js.NegInfinity
  | S _ =>
      exists i found,
        (i < n)%nat
        /\ nth_error (moves game) i = Some found
        /\ best = (Some found, Js.Fin (noisyScore game scale e i))
        /\ (forall j, (j < n)%nat ->
              (noisyScore game scale e j <= noisyScore game scale e i)%Q)
        /\ (forall j, (j < i)%nat ->
              (noisyScore game scale e j < noisyScore game scale e i)%Q)
  end.

(** The engine's answer to a move proposed by the player on [game]:
    the position it leads to, or [None] when the engine does not accept
    it (it returns [null] or throws). *)
Definition proposedMove (game : Chess) (sourceSquare targetSquare : string)
    : option Chess :=
  match loadFen (fen game) with
  | Some gameCopy =>
      match move gameCopy (FromTo sourceSquare targetSquare "q") with
      | Moved c => Some c
      | Null | Raised => None
      end
  | None => None
  end.


End Vocabulary.

(** ** An excerpt of the rules engine

    A few positions with what [chess.js] answers on them, to run the
    component on.  A position is its notation string.  The board is read
    off the string; the legal moves and the positions they lead to are
    listed for the positions of the excerpt, move by move in the engine's
    order (squares from a8 to h1, rank 8 first).  On other positions the
    excerpt lists no move, and nothing below asks it for one. *)

Module Book.

Definition pieceOfLetter (c : ascii) : option Piece :=
  match c with
  | "P"%char => Some (mkPiece White Pawn)
  | "N"%char => Some (mkPiece White Knight)
  | "B"%char => Some (mkPiece White Bishop)
  | "R"%char => Some (mkPiece White Rook)
  | "Q"%char => Some (mkPiece White Queen)
  | "K"%char => Some (mkPiece White King)
  | "p"%char => Some (mkPiece Black Pawn)
  | "n"%char => Some (mkPiece Black Knight)
  | "b"%char => Some (mkPiece Black Bishop)
  | "r"%char => Some (mkPiece Black Rook)
  | "q"%char => Some (mkPiece Black Queen)
  | "k"%char => Some (mkPiece Black King)
  | _ => None
  end.

Definition emptySquares (c : ascii) : option nat :=
  match c with
  | "1"%char => Some 1%nat
  | "2"%char => Some 2%nat
  | "3"%char => Some 3%nat
  | "4"%char => Some 4%nat
  | "5"%char => Some 5%nat
  | "6"%char => Some 6%nat
  | "7"%char => Some 7%nat
  | "8"%char => Some 8%nat
  | _ => None
  end.

(** The piece placement, the first field of the notation string: the
    rows from rank 8 to rank 1 separated by [/], a digit for a run of
    empty squares.  [None] on a letter that is neither. *)
Fixpoint parsePlacement (cs : list ascii) (row : list (option Piece)) (rows : Board)
    : option Board :=
  match cs with
  | [] => Some (rows ++ [row])
  | c :: rest =>
      if Ascii.eqb c " " then Some (rows ++ [row])
      else if Ascii.eqb c "/" then parsePlacement rest [] (rows ++ [row])
      else
        match emptySquares c, pieceOfLetter c with
        | Some k, _ => parsePlacement rest (row ++ repeat None k) rows
        | None, Some pc => parsePlacement rest (row ++ [Some pc]) rows
        | None, None => None
        end
  end.

Definition eightByEight (b : Board) : bool :=
  (List.length b =? 8)%nat && forallb (fun row => (List.length row =? 8)%nat) b.

Definition boardOfFen (f : string) : option Board :=
  match parsePlacement (list_ascii_of_string f) [] [] with
  | Some b => if eightByEight b then Some b else None
  | None => None
  end.

(** One legal move of a position: its notation, its squares, and the
    notation string of the position it leads to. *)
Record Line : Type := mkLine {
  san : string;
  from : string;
  to : string;
  next : string
}.

Record Page : Type := mkPage {
  position : string;
  over : bool;
  legal : list Line
}.

Definition startFen : string :=
  "rnbqkbnr/pppppppp/8/8/8/8/PPPPPPPP/RNBQKBNR w KQkq - 0 1".

(** The position after 1. f3 e5 2. g4 Qh4: White is checkmated. *)
Definition foolsMateFen : string :=
  "rnb1kbnr/pppp1ppp/8/4p3/6Pq/5P2/PPPPP2P/RNBQKBNR w KQkq - 1 3".

(** Black to move: king h8 against king a1 and a pawn on h7.  The king
    may take the pawn or step to g7; g8 is covered by the pawn. *)
Definition pawnEndingFen : string := "7k/7P/8/8/8/8/8/K7 b - - 0 1".

Definition startPage : Page :=
  mkPage startFen false
    [ mkLine "a3" "a2" "a3" "rnbqkbnr/pppppppp/8/8/8/P7/1PPPPPPP/RNBQKBNR b KQkq - 0 1";
      mkLine "a4" "a2" "a4" "rnbqkbnr/pppppppp/8/8/P7/8/1PPPPPPP/RNBQKBNR b KQkq - 0 1";
      mkLine "b3" "b2" "b3" "rnbqkbnr/pppppppp/8/8/8/1P6/P1PPPPPP/RNBQKBNR b KQkq - 0 1";
      mkLine "b4" "b2" "b4" "rnbqkbnr/pppppppp/8/8/1P6/8/P1PPPPPP/RNBQKBNR b KQkq - 0 1";
      mkLine "c3" "c2" "c3" "rnbqkbnr/pppppppp/8/8/8/2P5/PP1PPPPP/RNBQKBNR b KQkq - 0 1";
      mkLine "c4" "c2" "c4" "rnbqkbnr/pppppppp/8/8/2P5/8/PP1PPPPP/RNBQKBNR b KQkq - 0 1";
      mkLine "d3" "d2" "d3" "rnbqkbnr/pppppppp/8/8/8/3P4/PPP1PPPP/RNBQKBNR b KQkq - 0 1";
      mkLine "d4" "d2" "d4" "rnbqkbnr/pppppppp/8/8/3P4/8/PPP1PPPP/RNBQKBNR b KQkq - 0 1";
      mkLine "e3" "e2" "e3" "rnbqkbnr/pppppppp/8/8/8/4P3/PPPP1PPP/RNBQKBNR b KQkq - 0 1";
      mkLine "e4" "e2" "e4" "rnbqkbnr/pppppppp/8/8/4P3/8/PPPP1PPP/RNBQKBNR b KQkq - 0 1";
      mkLine "f3" "f2" "f3" "rnbqkbnr/pppppppp/8/8/8/5P2/PPPPP1PP/RNBQKBNR b KQkq - 0 1";
      mkLine "f4" "f2" "f4" "rnbqkbnr/pppppppp/8/8/5P2/8/PPPPP1PP/RNBQKBNR b KQkq - 0 1";
      mkLine "g3" "g2" "g3" "rnbqkbnr/pppppppp/8/8/8/6P1/PPPPPP1P/RNBQKBNR b KQkq - 0 1";
      mkLine "g4" "g2" "g4" "rnbqkbnr/pppppppp/8/8/6P1/8/PPPPPP1P/RNBQKBNR b KQkq - 0 1";
      mkLine "h3" "h2" "h3" "rnbqkbnr/pppppppp/8/8/8/7P/PPPPPPP1/RNBQKBNR b KQkq - 0 1";
      mkLine "h4" "h2" "h4" "rnbqkbnr/pppppppp/8/8/7P/8/PPPPPPP1/RNBQKBNR b KQkq - 0 1";
      mkLine "Na3" "b1" "a3" "rnbqkbnr/pppppppp/8/8/8/N7/PPPPPPPP/R1BQKBNR b KQkq - 1 1";
      mkLine "Nc3" "b1" "c3" "rnbqkbnr/pppppppp/8/8/8/2N5/PPPPPPPP/R1BQKBNR b KQkq - 1 1";
      mkLine "Nf3" "g1" "f3" "rnbqkbnr/pppppppp/8/8/8/5N2/PPPPPPPP/RNBQKB1R b KQkq - 1 1";
      mkLine "Nh3" "g1" "h3" "rnbqkbnr/pppppppp/8/8/8/7N/PPPPPPPP/RNBQKB1R b KQkq - 1 1" ].

Definition foolsMatePage : Page := mkPage foolsMateFen true [].

Definition pawnEndingPage : Page :=
  mkPage pawnEndingFen false
    [ mkLine "Kxh7" "h8" "h7" "8/7k/8/8/8/8/8/K7 w - - 0 2";
      mkLine "Kg7" "h8" "g7" "8/6kP/8/8/8/8/8/K7 w - - 1 2" ].

(** The pawn ending after the king took the pawn: king against king,
    a draw by insufficient material, so the game is over; [moves] still
    lists the moves of the king on a1. *)
Definition bareKingsFen : string := "8/7k/8/8/8/8/8/K7 w - - 0 2".

Definition bareKingsPage : Page :=
  mkPage bareKingsFen true
    [ mkLine "Ka2" "a1" "a2" "8/7k/8/8/8/8/K7/8 b - - 1 2";
      mkLine "Kb2" "a1" "b2" "8/7k/8/8/8/8/1K6/8 b - - 1 2";
      mkLine "Kb1" "a1" "b1" "8/7k/8/8/8/8/8/1K6 b - - 1 2" ].

Definition pages : list Page :=
  [startPage; foolsMatePage; pawnEndingPage; bareKingsPage].

Definition pageOf (f : string) : option Page :=
  find (fun pg => String.eqb (position pg) f) pages.

Definition linesOf (f : string) : list Line :=
  match pageOf f with
  | Some pg => legal pg
  | None => []
  end.

Definition playLine (f : string) (matches : Line -> bool) : MoveResult string :=
  match find matches (linesOf f) with
  | Some ln => Moved (next ln)
  | None => Raised
  end.

(** [.move()] throws on a move that is not legal, as the engine does
    since its version 1. *)
Definition bookMove (f : string) (arg : MoveArg) : MoveResult string :=
  match arg with
  | San mv => playLine f (fun ln => String.eqb (san ln) mv)
  | Undefined => Raised
  | FromTo a b _ => playLine f (fun ln => String.eqb (from ln) a && String.eqb (to ln) b)
  end.

#[global] Instance engine : ChessEngine := {|
  Chess := string;
  newChess := startFen;
  loadFen := fun f => match boardOfFen f with Some _ => Some f | None => None end;
  fen := fun f => f;
  moves := fun f => map san (linesOf f);
  move := bookMove;
  isGameOver := fun f => match pageOf f with Some pg => over pg | None => false end;
  board := fun f => match boardOfFen f with Some b => b | None => [] end
|}.

(** Random sources to run the component on. *)
Definition zero : Js.Draw := Js.mkDraw 0 eq_refl.
Definition half : Js.Draw := Js.mkDraw (1 # 2) eq_refl.
Definition tenth : Js.Draw := Js.mkDraw (1 # 10) eq_refl.
Definition nineTenths : Js.Draw := Js.mkDraw (9 # 10) eq_refl.

(** Every draw is 0. *)
Definition zeros : nat -> Js.Draw := fun _ => zero.

(** The first draw is 1/2, every later one is 0. *)
Definition halfThenZeros : nat -> Js.Draw :=
  fun i => match i with O => half | S _ => zero end.

(** The first draw is 9/10, every later one is 1/10. *)
Definition highThenLow : nat -> Js.Draw :=
  fun i => match i with O => nineTenths | S _ => tenth end.

(** The player drops the king's pawn from e2 to e4 and clicks the reset
    button before the opponent's reply, due 300 ms after the drop. *)
Definition dropThenReset : World :=
  run (initialWorld zeros) [Drop "e2" "e4"; ClickReset].


(** White is checkmated and an opponent step is pending on that
    position. *)
Definition checkmated : World :=
  mkWorld (mkState foolsMateFen easy false (Some ""%string))
          [MakeComputerMove foolsMateFen easy] (Js.mkEntropy zeros 0).

(** The pawn ending with Black to move, at a given difficulty. *)
Definition pawnEnding (d : Difficulty) : World :=
  mkWorld (mkState pawnEndingFen d false (Some ""%string)) [] (Js.mkEntropy highThenLow 0).

End Book.

(** ** Vocabulary of the further properties *)

Section Further.

Context {engine : ChessEngine}.

(** The board with the colour of every piece exchanged. *)
Definition flipColor (c : Color) : Color :=
  match c with
  | White => Black
  | Black => White
  end.

Definition flipPiece (pc : Piece) : Piece := mkPiece (flipColor (color pc)) (type pc).

Definition flipBoard (b : Board) : Board := map (map (option_map flipPiece)) b.

(** The positions the engine itself produces from a new game: a new
    game, a copy loaded from the notation string of such a position, or
    such a position after a move the engine played. *)
Inductive derivable : Chess -> Prop :=
| derivable_new : derivable newChess
| derivable_copy (g c : Chess) :
    derivable g -> loadFen (fen g) = Some c -> derivable c
| derivable_move (g c : Chess) (arg : MoveArg) :
    derivable g -> move g arg = Moved c -> derivable c.

(** A pending call holds a position of that kind. *)
Definition holdsDerivable (cb : Callback) : Prop :=
  match cb with
  | MakeComputerMove g _ => derivable g
  | HideHint => True
  end.

Definition wellFormed (w : World) : Prop :=
  derivable (game (ui w)) /\ Forall holdsDerivable (timers w).

End Further.

(** ** The selection on binary64 numbers

    [evaluatePosition], [findBestMove] and the [switch] on the
    difficulty as JavaScript computes them: [value] accumulates binary64
    numbers, [Math.random()] returns a binary64 number at least 0 and
    below 1, the product with the scale and the sum with the evaluation
    are rounded to binary64, and [value > bestValue] compares binary64
    numbers, [bestValue] starting at [-Infinity]. *)

Module Binary64.

Import PrimFloat.

Definition in_unit_interval (x : float) : bool := (0 <=? x)%float && (x <? 1)%float.

Record Draw : Type := mkDraw {
  draw_value : float;
  draw_range : in_unit_interval draw_value = true
}.

Record Entropy : Type := mkEntropy {
  source : nat -> Draw;
  cursor : nat
}.

Definition advance (n : nat) (e : Entropy) : Entropy :=
  mkEntropy (source e) (cursor e + n).

Definition M (A : Type) : Type := Entropy -> Js.Outcome A * Entropy.

Definition ret {A} (a : A) : M A := fun e => (Js.Returned a, e).

Definition bind {A B} (c : M A) (f : A -> M B) : M B :=
  fun e =>
    match c e with
    | (Js.Returned a, e') => f a e'
    | (Js.Thrown, e') => (Js.Thrown, e')
    end.

Definition throw {A} : M A := fun e => (Js.Thrown, e).

Definition Math_random : M float :=
  fun e => (Js.Returned (draw_value (source e (cursor e))), advance 1 e).

(** [value > bestValue] *)
Definition gt (value bestValue : float) : bool := (bestValue <? value)%float.

(** The number an integer is in JavaScript: the binary64 number nearest
    to it, the integer itself up to 2^53. *)
Definition toNumber (z : Z) : float :=
  FloatOps.SF2Prim (SpecFloat.binary_normalize FloatOps.prec FloatOps.emax z 0 false).

(** [Math.floor(x)] as an array index: the integer part of a number that
    is not negative.  A negative number, an infinity and NaN are no
    index, and reading the array there gives [undefined]. *)
Definition Math_floor (x : float) : option nat :=
  match FloatOps.Prim2SF x with
  | SpecFloat.S754_zero _ => Some 0%nat
  | SpecFloat.S754_finite false m e => Some (Z.to_nat (Z.shiftl (Zpos m) e))
  | _ => None
  end.

(** *** evaluatePosition (lines 77-98) *)

Definition pieceValues (t : PieceSymbol) : float :=
  match t with
  | Pawn => 1%float
  | Knight => 3%float
  | Bishop => 3%float
  | Rook => 5%float
  | Queen => 9%float
  | King => 0%float
  end.

Definition multiplier (c : Color) : float :=
  match c with
  | White => 1%float
  | Black => (-1)%float
  end.

(** The two nested [forEach] loops, adding into [value]. *)
Definition evaluateRow (value : float) (row : list (option Piece)) : float :=
  fold_left
    (fun value piece =>
       match piece with
       | Some pc => (value + pieceValues (type pc) * multiplier (color pc))%float
       | None => value
       end)
    row value.

Definition evaluateBoard (b : Board) : float := fold_left evaluateRow b 0%float.

(** *** findBestMove (lines 59-75) *)

Section Selection.

Context {engine : ChessEngine}.

Definition evaluatePosition (game : Chess) : float := evaluateBoard (board game).

Definition new_Chess (f : string) : M Chess :=
  match loadFen f with
  | Some c => ret c
  | None => throw
  end.

Definition call_move (gameCopy : Chess) (arg : MoveArg) : M (Chess * bool) :=
  match move gameCopy arg with
  | Moved c => ret (c, true)
  | Null => ret (gameCopy, false)
  | Raised => throw
  end.

(** [depth === 2 ? 2 : 0.5] *)
Definition noiseScale (depth : Z) : float := if depth =? 2 then 2%float else 0.5%float.

Definition scoreMove (game : Chess) (depth : Z) (mv : string) : M float :=
  bind (new_Chess (fen game)) (fun gameCopy =>
  bind (call_move gameCopy (San mv)) (fun played =>
  bind Math_random (fun r =>
  ret (evaluatePosition (fst played) + r * noiseScale depth)%float))).

Fixpoint forEachMove (game : Chess) (depth : Z) (ms : list string)
    (best : option string * float) : M (option string * float) :=
  match ms with
  | [] => ret best
  | mv :: rest =>
      bind (scoreMove game depth mv) (fun value =>
      forEachMove game depth rest
        (if gt value (snd best) then (Some mv, value) else best))
  end.

Definition findBestMove (game : Chess) (depth : Z) : M (option string) :=
  let ms := moves game in
  bind (forEachMove game depth ms (nth_error ms 0, neg_infinity)) (fun best =>
  ret (fst best)).

(** The [switch] on the difficulty (lines 18-32). *)
Definition chooseMove (game : Chess) (difficulty : Difficulty)
    (possibleMoves : list string) : M (option string) :=
  match difficulty with
  | easy =>
      bind Math_random (fun r =>
      ret (match Math_floor (r * toNumber (Z.of_nat (List.length possibleMoves))) with
           | Some i => nth_error possibleMoves i
           | None => None
           end))
  | amateur => findBestMove game 2
  | pro => findBestMove game 4
  end.

(** *** Vocabulary of the statements *)

(** The noise added to the [i]-th listed move: its draw times the
    scale, rounded. *)
Definition noiseAt (scale : float) (e : Entropy) (i : nat) : float :=
  (draw_value (source e (cursor e + i)) * scale)%float.

(** The noisy score of the [i]-th listed move: the evaluation of the
    position it leads to plus its noise, rounded. *)
Definition noisyScore (game : Chess) (scale : float) (e : Entropy) (i : nat) : float :=
  (toNumber (evaluationAfter game i) + noiseAt scale e i)%float.

(** [found] is the [i]-th listed move, no candidate has a greater
    score, and every earlier candidate has a smaller one. *)
Definition firstBest (game : Chess) (scale : float) (e : Entropy)
    (i : nat) (found : string) : Prop :=
  nth_error (moves game) i = Some found
  /\ (forall j, (j < List.length (moves game))%nat ->
        (noisyScore game scale e j <=? noisyScore game scale e i)%float = true)
  /\ (forall j, (j < i)%nat ->
        (noisyScore game scale e j <? noisyScore game scale e i)%float = true).

(** What the loop holds after the first [n] listed moves. *)
Definition bestSoFar (game : Chess) (scale : float) (e : Entropy) (n : nat)
    (best : option string * float) : Prop :=
  match n with
  | O => best = (nth_error (moves game) 0, neg_infinity)
  | S _ =>
      exists i found,
        (i < n)%nat
        /\ nth_error (moves game) i = Some found
        /\ best = (Some found, noisyScore game scale e i)
        /\ (forall j, (j < n)%nat ->
              (noisyScore game scale e j <=? noisyScore game scale e i)%float = true)
        /\ (forall j, (j < i)%nat ->
              (noisyScore game scale e j <? noisyScore game scale e i)%float = true)
  end.

(** The positions the listed moves lead to are positions of chess: at
    most 64 squares hold a piece. *)
Definition standardBoards (game : Chess) : Prop :=
  forall mv c,
    In mv (moves game) ->
    resultingPosition game mv = Some c ->
    (List.length (occupiedSquares (board c)) <= 64)%nat.

End Selection.

(** Random sources to run the selection on. *)
Definition zero : Draw := mkDraw 0%float eq_refl.
Definition half : Draw := mkDraw 0.5%float eq_refl.
Definition tenth : Draw := mkDraw 0x1.999999999999ap-4%float eq_refl.
Definition nineTenths : Draw := mkDraw 0x1.ccccccccccccdp-1%float eq_refl.
Definition tiny : Draw := mkDraw 0x1p-60%float eq_refl.

(** Every draw is 0. *)
Definition zeros : nat -> Draw := fun _ => zero.

(** The first draw is 0.9, every later one is 0.1. *)
Definition highThenLow : nat -> Draw :=
  fun i => match i with O => nineTenths | S _ => tenth end.

(** The first draw is 1/2, every later one is 2^-60. *)
Definition halfThenTiny : nat -> Draw :=
  fun i => match i with O => half | S _ => tiny end.

(** The double nearest to 0.95. *)
Definition nearlyAll : Draw := mkDraw 0x1.e666666666666p-1%float eq_refl.

(** *** Vocabulary of the proofs *)

(** The tables over which the sums of [evaluatePosition] are run. *)
Definition allPieces : list Piece :=
  [mkPiece White Pawn; mkPiece White Knight; mkPiece White Bishop;
   mkPiece White Rook; mkPiece White Queen; mkPiece White King;
   mkPiece Black Pawn; mkPiece Black Knight; mkPiece Black Bishop;
   mkPiece Black Rook; mkPiece Black Queen; mkPiece Black King].

Definition integersFrom (lo : Z) (n : nat) : list Z :=
  map (fun k => lo + Z.of_nat k) (seq 0 n).

(** A small integer as a binary64 number, by the primitive conversion. *)
Definition fromInt (a : Z) : float :=
  if a <? 0 then (- of_uint63 (Uint63Axioms.of_Z (- a)))%float
  else of_uint63 (Uint63Axioms.of_Z a).

Definition SFnotNaN (x : SpecFloat.spec_float) : Prop := x <> SpecFloat.S754_nan.

Definition notNaN (x : float) : Prop := FloatOps.Prim2SF x <> SpecFloat.S754_nan.

(** A zero, an infinity or a finite number of sign [s]. *)
Definition signed (s : bool) (x : SpecFloat.spec_float) : Prop :=
  x = SpecFloat.S754_zero s \/ x = SpecFloat.S754_infinity s
  \/ exists m e, x = SpecFloat.S754_finite s m e.

(** The number 1, and the number [2^52 * 2^es]: 2 at [es = -51] and 1/2
    at [es = -53]. *)
Definition sf_one : SpecFloat.spec_float :=
  SpecFloat.S754_finite false 4503599627370496 (-52).
Definition sf_scale (es : Z) : SpecFloat.spec_float :=
  SpecFloat.S754_finite false 4503599627370496 es.

End Binary64.

(** ** The evaluator *)

Section Evaluator.

Context {engine : ChessEngine}.

Lemma signedValue_multiplier (pc : Piece) :
  pieceValues (type pc) * multiplier (color pc) = signedValue pc.
Proof. unfold signedValue, multiplier. destruct (color pc); lia. Qed.

Lemma evaluateRow_sum (row : list (option Piece)) (value : Z) :
  evaluateRow value row = value + sumZ (map signedValue (occupiedSquares [row])).
Proof.
  unfold evaluateRow, occupiedSquares. simpl. rewrite app_nil_r.
  revert value. induction row as [|sq row IH]; intros value; simpl.
  - lia.
  - rewrite IH. destruct sq as [pc|]; simpl.
    + rewrite signedValue_multiplier. lia.
    + reflexivity.
Qed.

Lemma sumZ_app (l1 l2 : list Z) : sumZ (l1 ++ l2) = sumZ l1 + sumZ l2.
Proof. induction l1 as [|x l1 IH]; simpl; [reflexivity | rewrite IH; lia]. Qed.

Lemma evaluateRows_sum (b : Board) (value : Z) :
  fold_left evaluateRow b value = value + sumZ (map signedValue (occupiedSquares b)).
Proof.
  revert value. induction b as [|row b IH]; intros value; simpl.
  - lia.
  - rewrite IH, evaluateRow_sum. unfold occupiedSquares. simpl.
    rewrite app_nil_r, map_app, sumZ_app. lia.
Qed.

Lemma evaluateBoard_sum (b : Board) :
  evaluateBoard b = sumZ (map signedValue (occupiedSquares b)).
Proof. unfold evaluateBoard. rewrite evaluateRows_sum. lia. Qed.

Lemma signedValue_bound (pc : Piece) : Z.abs (signedValue pc) <= 9.
Proof. destruct pc as [[] []]; simpl; lia. Qed.

End Evaluator.

(** ** The selection *)

Section Selection.

Context {engine : ChessEngine}.

Lemma advance_0 (e : Js.Entropy) : Js.advance 0 e = e.
Proof. destruct e as [src k]. unfold Js.advance. simpl. now rewrite Nat.add_0_r. Qed.

Lemma advance_advance (n m : nat) (e : Js.Entropy) :
  Js.advance m (Js.advance n e) = Js.advance (n + m) e.
Proof. unfold Js.advance. simpl. now rewrite Nat.add_assoc. Qed.

Lemma gt_Fin (x y : Q) : Js.gt x (Js.Fin y) = true <-> (y < x)%Q.
Proof.
  simpl. rewrite negb_true_iff. split.
  - intros H. apply Qnot_le_lt. intros Hle. apply Qle_bool_iff in Hle. congruence.
  - intros H. destruct (Qle_bool x y) eqn:E; [|reflexivity].
    apply Qle_bool_iff in E. exfalso. apply (Qlt_not_le _ _ H E).
Qed.

Lemma gt_Fin_false (x y : Q) : Js.gt x (Js.Fin y) = false <-> (x <= y)%Q.
Proof. simpl. rewrite negb_false_iff. apply Qle_bool_iff. Qed.

Variables (g : Chess) (depth : Z).

Lemma scoreMove_run (mv : string) (c : Chess) (e : Js.Entropy) :
  resultingPosition g mv = Some c ->
  scoreMove g depth mv e =
  (Js.Returned (inject_Z (evaluatePosition c)
                + Js.draw_value (Js.source e (Js.cursor e)) * noiseScale depth)%Q,
   Js.advance 1 e).
Proof.
  unfold resultingPosition, scoreMove, Js.bind, new_Chess, call_move.
  destruct (loadFen (fen g)) as [gameCopy|]; [|discriminate].
  unfold Js.ret. destruct (move gameCopy (San mv)); intros H; inversion H; reflexivity.
Qed.

Lemma noisyScore_at (e0 : Js.Entropy) (i : nat) (mv : string) (c : Chess) :
  nth_error (moves g) i = Some mv ->
  resultingPosition g mv = Some c ->
  noisyScore g (noiseScale depth) e0 i =
  (inject_Z (evaluatePosition c)
   + Js.draw_value (Js.source e0 (Js.cursor e0 + i)) * noiseScale depth)%Q.
Proof.
  intros Hnth Hres. unfold noisyScore, evaluationAfter, noiseAt.
  now rewrite Hnth, Hres.
Qed.

Lemma bestSoFar_step (e0 : Js.Entropy) (n : nat) (mv : string)
    (best : option string * Js.Num) :
  nth_error (moves g) n = Some mv ->
  bestSoFar g (noiseScale depth) e0 n best ->
  bestSoFar g (noiseScale depth) e0 (S n)
    (if Js.gt (noisyScore g (noiseScale depth) e0 n) (snd best)
     then (Some mv, Js.Fin (noisyScore g (noiseScale depth) e0 n))
     else best).
Proof.
  intros Hnth Hbest. destruct n as [|n].
  - simpl in Hbest. rewrite Hbest. simpl.
    exists 0%nat, mv. repeat split; auto with arith.
    + intros j Hj. assert (j = 0)%nat by lia. subst. apply Qle_refl.
    + intros j Hj. lia.
  - destruct Hbest as (i & found & Hi & Hfound & -> & Hmax & Hfirst).
    cbn [snd].
    destruct (Js.gt (noisyScore g (noiseScale depth) e0 (S n))
                    (Js.Fin (noisyScore g (noiseScale depth) e0 i))) eqn:Hgt.
    + apply gt_Fin in Hgt.
      exists (S n), mv. repeat split; auto.
      * intros j Hj. destruct (Nat.eq_dec j (S n)) as [->|Hne]; [apply Qle_refl|].
        apply Qlt_le_weak. eapply Qle_lt_trans; [apply Hmax; lia | exact Hgt].
      * intros j Hj. eapply Qle_lt_trans; [apply Hmax; lia | exact Hgt].
    + apply gt_Fin_false in Hgt.
      exists i, found. repeat split; auto.
      intros j Hj. destruct (Nat.eq_dec j (S n)) as [->|Hne]; [exact Hgt|].
      apply Hmax. lia.
Qed.

Lemma forEachMove_run (e0 : Js.Entropy) :
  playsItsMoves g ->
  forall (ms pre : list string) (best : option string * Js.Num),
    moves g = pre ++ ms ->
    bestSoFar g (noiseScale depth) e0 (List.length pre) best ->
    exists best',
      forEachMove g depth ms best (Js.advance (List.length pre) e0) =
      (Js.Returned best', Js.advance (List.length (moves g)) e0)
      /\ bestSoFar g (noiseScale depth) e0 (List.length (moves g)) best'.
Proof.
  intros Hplays. induction ms as [|mv rest IH]; intros pre best Hsplit Hbest.
  - rewrite app_nil_r in Hsplit. rewrite Hsplit. exists best. split; [reflexivity | exact Hbest].
  - assert (Hnth : nth_error (moves g) (List.length pre) = Some mv).
    { rewrite Hsplit, nth_error_app2, Nat.sub_diag by lia. reflexivity. }
    destruct (resultingPosition g mv) as [c|] eqn:Hres.
    2:{ exfalso. apply (Hplays mv); [|exact Hres].
        rewrite Hsplit. apply in_or_app. right. left. reflexivity. }
    cbn [forEachMove]. unfold Js.bind at 1.
    rewrite (scoreMove_run mv c _ Hres).
    cbn [Js.advance Js.source Js.cursor].
    rewrite <- (noisyScore_at e0 _ mv c Hnth Hres).
    change (Js.mkEntropy (Js.source e0) (Js.cursor e0 + List.length pre + 1))
      with (Js.advance 1 (Js.advance (List.length pre) e0)).
    rewrite advance_advance.
    replace (List.length pre + 1)%nat with (List.length (pre ++ [mv]))
      by (rewrite length_app; reflexivity).
    apply IH.
    + rewrite Hsplit, <- app_assoc. reflexivity.
    + rewrite length_app, Nat.add_1_r. apply bestSoFar_step; assumption.
Qed.

Lemma findBestMove_firstBest (e0 : Js.Entropy) :
  moves g <> [] ->
  playsItsMoves g ->
  exists i found,
    findBestMove g depth e0 =
    (Js.Returned (Some found), Js.advance (List.length (moves g)) e0)
    /\ firstBest g (noiseScale depth) e0 i found.
Proof.
  intros Hne Hplays.
  destruct (forEachMove_run e0 Hplays (moves g) [] (nth_error (moves g) 0, Js.NegInfinity))
    as (best' & Hrun & Hbest); [reflexivity | reflexivity |].
  cbn [List.length] in Hrun. rewrite advance_0 in Hrun.
  assert (Hlen : exists n, List.length (moves g) = S n).
  { destruct (moves g); [congruence | eexists; reflexivity]. }
  destruct Hlen as [n Hlen]. rewrite Hlen in Hbest. cbn [bestSoFar] in Hbest.
  destruct Hbest as (i & found & Hi & Hfound & -> & Hmax & Hfirst).
  exists i, found. split.
  - unfold findBestMove, Js.bind. rewrite Hrun. reflexivity.
  - unfold firstBest. rewrite Hlen. auto.
Qed.

Lemma findBestMove_no_moves (e0 : Js.Entropy) :
  moves g = [] -> findBestMove g depth e0 = (Js.Returned None, e0).
Proof. intros Hnil. unfold findBestMove, Js.bind. rewrite Hnil. reflexivity. Qed.

End Selection.

(** ** What [Math.random] and the selection return *)

Section Choice.

Context {engine : ChessEngine}.

Lemma draw_bounds (r : Js.Draw) : (0 <= Js.draw_value r)%Q /\ (Js.draw_value r < 1)%Q.
Proof.
  pose proof (Js.draw_range r) as H. unfold Js.in_unit_interval in H.
  apply andb_true_iff in H. destruct H as [H0 H1]. split.
  - now apply Qle_bool_iff.
  - apply Qnot_le_lt. intros Hle. apply Qle_bool_iff in Hle.
    rewrite Hle in H1. discriminate.
Qed.

(** [Math.floor(Math.random() * n)] is an index below [n]. *)
Lemma random_index_in_range (r : Js.Draw) (n : nat) :
  (0 < n)%nat ->
  (Js.Math_floor (Js.draw_value r * inject_Z (Z.of_nat n)) < n)%nat.
Proof.
  intros Hn. destruct (draw_bounds r) as [H0 H1].
  set (x := (Js.draw_value r * inject_Z (Z.of_nat n))%Q).
  assert (Hpos : (0 < inject_Z (Z.of_nat n))%Q).
  { change 0%Q with (inject_Z 0). rewrite <- Zlt_Qlt. lia. }
  assert (Hx0 : (0 <= x)%Q) by (apply Qmult_le_0_compat; [exact H0 | now apply Qlt_le_weak]).
  assert (Hx1 : (x < inject_Z (Z.of_nat n))%Q).
  { unfold x. setoid_replace (inject_Z (Z.of_nat n)) with (1 * inject_Z (Z.of_nat n))%Q at 2 by ring.
    apply Qmult_lt_compat_r; assumption. }
  assert (Hf0 : 0 <= Qfloor x).
  { change 0 with (Qfloor 0). now apply Qfloor_resp_le. }
  assert (Hf1 : Qfloor x < Z.of_nat n).
  { rewrite Zlt_Qlt. eapply Qle_lt_trans; [apply Qfloor_le | exact Hx1]. }
  unfold Js.Math_floor. fold x. lia.
Qed.

Lemma noise_bounds (scale : Q) (e : Js.Entropy) (i : nat) :
  (0 < scale)%Q -> (0 <= noiseAt scale e i)%Q /\ (noiseAt scale e i < scale)%Q.
Proof.
  intros Hs. unfold noiseAt.
  destruct (draw_bounds (Js.source e (Js.cursor e + i))) as [H0 H1]. split.
  - apply Qmult_le_0_compat; [exact H0 | now apply Qlt_le_weak].
  - setoid_replace scale with (1 * scale)%Q at 2 by ring.
    apply Qmult_lt_compat_r; assumption.
Qed.

(** The depth reaches the loop through [noiseScale] alone. *)
Lemma forEachMove_depth (game : Chess) (d1 d2 : Z) :
  noiseScale d1 = noiseScale d2 ->
  forall ms best e, forEachMove game d1 ms best e = forEachMove game d2 ms best e.
Proof.
  intros Hscale. induction ms as [|mv rest IH]; intros best e; [reflexivity|].
  cbn [forEachMove]. unfold Js.bind, scoreMove, Js.bind. rewrite Hscale.
  destruct (new_Chess (fen game) e) as [[gameCopy|] e1]; [|reflexivity].
  destruct (call_move gameCopy (San mv) e1) as [[played|] e2]; [|reflexivity].
  destruct (Js.Math_random e2) as [[r|] e3]; [|reflexivity].
  unfold Js.ret. apply IH.
Qed.

Lemma findBestMove_depth (game : Chess) (d1 d2 : Z) (e : Js.Entropy) :
  noiseScale d1 = noiseScale d2 ->
  findBestMove game d1 e = findBestMove game d2 e.
Proof.
  intros Hscale. unfold findBestMove, Js.bind.
  now rewrite (forEachMove_depth game d1 d2 Hscale).
Qed.

Lemma firstBest_In (game : Chess) (scale : Q) (e : Js.Entropy) (i : nat) (found : string) :
  firstBest game scale e i found -> In found (moves game).
Proof. intros [Hnth _]. eapply nth_error_In. exact Hnth. Qed.

(** The [switch] of [makeComputerMove] on a position with a legal move. *)
Lemma chooseMove_returns_listed (game : Chess) (d : Difficulty) (e : Js.Entropy) :
  moves game <> [] ->
  playsItsMoves game ->
  exists found e',
    chooseMove game d (moves game) e = (Js.Returned (Some found), e')
    /\ In found (moves game).
Proof.
  intros Hne Hplays. destruct d.
  - unfold chooseMove, Js.bind, Js.Math_random, Js.ret.
    pose proof (random_index_in_range (Js.source e (Js.cursor e)) (List.length (moves game))) as Hidx.
    assert (Hlen : (0 < List.length (moves game))%nat).
    { destruct (moves game); [congruence | simpl; lia]. }
    specialize (Hidx Hlen). apply nth_error_Some in Hidx.
    destruct (nth_error (moves game) _) as [found|] eqn:Hfound; [|congruence].
    exists found, (Js.advance 1 e). split; [reflexivity|].
    eapply nth_error_In. exact Hfound.
  - destruct (findBestMove_firstBest game 2 e Hne Hplays) as (i & found & Hrun & Hbest).
    exists found, (Js.advance (List.length (moves game)) e). split; [exact Hrun|].
    eapply firstBest_In. exact Hbest.
  - destruct (findBestMove_firstBest game 4 e Hne Hplays) as (i & found & Hrun & Hbest).
    exists found, (Js.advance (List.length (moves game)) e). split; [exact Hrun|].
    eapply firstBest_In. exact Hbest.
Qed.

Lemma chooseMove_no_moves (game : Chess) (d : Difficulty) (e : Js.Entropy) :
  moves game = [] ->
  exists e', chooseMove game d (moves game) e = (Js.Returned None, e').
Proof.
  intros Hnil. destruct d.
  - exists (Js.advance 1 e). unfold chooseMove, Js.bind, Js.Math_random, Js.ret.
    rewrite Hnil. now destruct (Js.Math_floor _).
  - exists e. now apply findBestMove_no_moves.
  - exists e. now apply findBestMove_no_moves.
Qed.

End Choice.

(** ** The excerpt plays the moves it lists *)

Ltac book_plays :=
  let mv := fresh "mv" in
  let Hin := fresh "Hin" in
  let H := fresh "H" in
  intros mv Hin; simpl in Hin;
  repeat (destruct Hin as [<-|Hin]; [intro H; vm_compute in H; discriminate|]);
  destruct Hin.

Lemma book_plays_start : @playsItsMoves Book.engine Book.startFen.
Proof. book_plays. Qed.

Lemma book_plays_pawnEnding : @playsItsMoves Book.engine Book.pawnEndingFen.
Proof. book_plays. Qed.

Lemma book_plays_foolsMate : @playsItsMoves Book.engine Book.foolsMateFen.
Proof. book_plays. Qed.

(** ** Binary64 arithmetic

    Facts about the comparison and the rounding of binary64 numbers, from
    the specification of the primitive operations. *)

Module Binary64Facts.

Import PrimFloat SpecFloat FloatOps FloatAxioms.

(** *** The order of the comparison *)

Ltac cases_compare :=
  repeat match goal with
  | H : context [Pos.compare_cont Eq ?a ?b] |- _ =>
      change (Pos.compare_cont Eq a b) with (Pos.compare a b) in H
  | |- context [Pos.compare_cont Eq ?a ?b] =>
      change (Pos.compare_cont Eq a b) with (Pos.compare a b)
  end;
  repeat match goal with
  | H : context [Z.compare ?a ?b] |- _ => destruct (Z.compare_spec a b)
  | |- context [Z.compare ?a ?b] => destruct (Z.compare_spec a b)
  | H : context [Pos.compare ?a ?b] |- _ => destruct (Pos.compare_spec a b)
  | |- context [Pos.compare ?a ?b] => destruct (Pos.compare_spec a b)
  end.

Ltac sf_cases :=
  unfold SFltb, SFleb, SFeqb, Binary64.SFnotNaN in *;
  repeat match goal with
  | x : spec_float |- _ => destruct x as [[|]|[|]| |[|] ? ?]
  end;
  cbn [SFcompare CompOpp] in *;
  try congruence;
  cases_compare; cbn [CompOpp] in *; subst; try congruence; try lia.

Lemma SFltb_trans (a b c : spec_float) :
  SFltb a b = true -> SFltb b c = true -> SFltb a c = true.
Proof. intros H1 H2. sf_cases. Qed.

Lemma SFleb_ltb_trans (a b c : spec_float) :
  SFleb a b = true -> SFltb b c = true -> SFltb a c = true.
Proof. intros H1 H2. sf_cases. Qed.

Lemma SFltb_leb (a b : spec_float) : SFltb a b = true -> SFleb a b = true.
Proof. intros H. sf_cases. Qed.

Lemma SFltb_false_leb (a b : spec_float) :
  Binary64.SFnotNaN a -> Binary64.SFnotNaN b -> SFltb a b = false -> SFleb b a = true.
Proof. intros Ha Hb H. sf_cases. Qed.

Lemma SFleb_refl (a : spec_float) : Binary64.SFnotNaN a -> SFleb a a = true.
Proof. intros Ha. sf_cases. Qed.

Lemma SFltb_irrefl (a : spec_float) : SFltb a a = false.
Proof. sf_cases. Qed.

Lemma SFltb_not_eqb (a b : spec_float) : SFltb a b = true -> SFeqb a b = false.
Proof. intros H. sf_cases. Qed.

Lemma SFltb_not_eqb_sym (a b : spec_float) : SFltb a b = true -> SFeqb b a = false.
Proof. sf_cases. Qed.

Lemma SFltb_not_leb (a b : spec_float) : SFltb a b = true -> SFleb b a = false.
Proof. sf_cases. Qed.

Lemma SFeqb_refl (a : spec_float) : Binary64.SFnotNaN a -> SFeqb a a = true.
Proof. intros Ha. sf_cases. Qed.

Lemma SFltb_neg_infinity (a : spec_float) :
  Binary64.SFnotNaN a -> SFltb (S754_infinity true) a = false -> a = S754_infinity true.
Proof. intros Ha H. sf_cases. Qed.

(** *** Roundings give no NaN *)

Lemma shr_1_nonneg (mrs : shr_record) : 0 <= shr_m mrs -> 0 <= shr_m (shr_1 mrs).
Proof.
  destruct mrs as [m r s]. cbn [shr_m]. intros Hm.
  destruct m as [|[p|p|]|p]; cbn; lia.
Qed.

Lemma iter_pos_invariant (A : Type) (P : A -> Prop) (f : A -> A) :
  (forall x, P x -> P (f x)) -> forall p x, P x -> P (iter_pos f p x).
Proof.
  intros Hf. induction p as [p IH|p IH|]; intros x Hx; cbn; auto.
Qed.

Lemma shr_nonneg (mrs : shr_record) (e n : Z) :
  0 <= shr_m mrs -> 0 <= shr_m (fst (shr mrs e n)).
Proof.
  intros Hm. unfold shr. destruct n as [|p|p]; cbn [fst]; auto.
  apply (iter_pos_invariant _ (fun r => 0 <= shr_m r)); auto using shr_1_nonneg.
Qed.

Lemma shr_fexp_nonneg (prec emax m e : Z) (l : location) :
  0 <= m -> 0 <= shr_m (fst (shr_fexp prec emax m e l)).
Proof.
  intros Hm. unfold shr_fexp. apply shr_nonneg.
  destruct l as [|[]]; exact Hm.
Qed.

Lemma round_nearest_even_nonneg (m : Z) (l : location) :
  0 <= m -> 0 <= round_nearest_even m l.
Proof. intros Hm. destruct l as [|[]]; cbn; try lia. destruct (Z.even m); lia. Qed.

Lemma binary_round_aux_signed (prec emax : Z) (s : bool) (m e : Z) (l : location) :
  0 <= m -> Binary64.signed s (binary_round_aux prec emax s m e l).
Proof.
  intros Hm. unfold binary_round_aux.
  pose proof (shr_fexp_nonneg prec emax m e l Hm) as H1.
  destruct (shr_fexp prec emax m e l) as [mrs' e']. cbn [fst] in H1.
  pose proof (shr_fexp_nonneg prec emax
                (round_nearest_even (shr_m mrs') (loc_of_shr_record mrs')) e' loc_Exact
                (round_nearest_even_nonneg _ _ H1)) as H2.
  destruct (shr_fexp prec emax _ e' loc_Exact) as [mrs'' e'']. cbn [fst] in H2.
  destruct (shr_m mrs'') as [|p|p].
  - left. reflexivity.
  - destruct (e'' <=? emax - prec); [right; right; eauto | right; left; reflexivity].
  - lia.
Qed.

Lemma binary_round_signed (prec emax : Z) (s : bool) (m : positive) (e : Z) :
  Binary64.signed s (binary_round prec emax s m e).
Proof.
  unfold binary_round. destruct (shl_align m e _) as [mz ez].
  apply binary_round_aux_signed. lia.
Qed.

Lemma signed_notNaN (s : bool) (x : spec_float) : Binary64.signed s x -> x <> S754_nan.
Proof. intros [->|[->|(m & e & ->)]]; discriminate. Qed.

Lemma binary_normalize_notNaN (prec emax m e : Z) (s : bool) :
  binary_normalize prec emax m e s <> S754_nan.
Proof.
  unfold binary_normalize. destruct m as [|p|p].
  - discriminate.
  - eapply signed_notNaN, binary_round_signed.
  - eapply signed_notNaN, binary_round_signed.
Qed.

(** A product of a non-negative number below infinity and a positive
    finite number is non-negative or zero, and no NaN. *)
Lemma SFmul_nonneg (prec emax : Z) (x : spec_float) (my : positive) (ey : Z) :
  (exists s, x = S754_zero s) \/ (exists m e, x = S754_finite false m e) ->
  (exists s, SFmul prec emax x (S754_finite false my ey) = S754_zero s)
  \/ Binary64.signed false (SFmul prec emax x (S754_finite false my ey)).
Proof.
  intros [[s ->]|(m & e & ->)]; cbn [SFmul xorb].
  - left. eauto.
  - right. apply binary_round_aux_signed. lia.
Qed.

(** Adding a finite number or a zero to a number that is no NaN gives
    no NaN. *)
Lemma SFadd_notNaN (prec emax : Z) (x y : spec_float) :
  (exists s, x = S754_zero s) \/ (exists s m e, x = S754_finite s m e) ->
  y <> S754_nan ->
  SFadd prec emax x y <> S754_nan.
Proof.
  intros [[sx ->]|(sx & mx & ex & ->)] Hy; destruct y as [sy|sy| |sy my ey];
    try congruence; cbn [SFadd]; try discriminate.
  - destruct sx, sy; discriminate.
  - apply binary_normalize_notNaN.
Qed.

(** *** Small integers are binary64 numbers *)

Lemma digits2_pos_bounds (p : positive) :
  2 ^ Zpos (digits2_pos p) <= 2 * Zpos p < 2 * 2 ^ Zpos (digits2_pos p).
Proof.
  induction p as [p IH|p IH|]; cbn [digits2_pos].
  - rewrite Pos2Z.inj_succ, Z.pow_succ_r, (Pos2Z.inj_xI p) by lia. lia.
  - rewrite Pos2Z.inj_succ, Z.pow_succ_r, (Pos2Z.inj_xO p) by lia. lia.
  - cbn. lia.
Qed.

Lemma digits2_pos_small (p : positive) :
  Zpos p < 2 ^ 53 -> Zpos (digits2_pos p) <= 53.
Proof.
  intros Hp. destruct (digits2_pos_bounds p) as [Hlo _].
  destruct (Z.le_gt_cases (Zpos (digits2_pos p)) 53) as [H|H]; [exact H|exfalso].
  assert (2 ^ 54 <= 2 ^ Zpos (digits2_pos p)) by (apply Z.pow_le_mono_r; lia).
  change (2 ^ 54) with (2 * 2 ^ 53) in H0. lia.
Qed.

Lemma digits2_pos_iter_xO (p k : positive) :
  Zpos (digits2_pos (Pos.iter xO p k)) = Zpos (digits2_pos p) + Zpos k.
Proof.
  induction k as [|k IH] using Pos.peano_ind.
  - cbn. lia.
  - rewrite Pos.iter_succ. cbn [digits2_pos]. rewrite Pos2Z.inj_succ, IH. lia.
Qed.

Lemma shr_fexp_canonical (m : positive) (e : Z) :
  Zpos (digits2_pos m) = 53 -> -1074 <= e ->
  shr_fexp prec emax (Zpos m) e loc_Exact = (Build_shr_record (Zpos m) false false, e).
Proof.
  intros Hd He. unfold shr_fexp, fexp, Zdigits2. rewrite Hd.
  replace (Z.max (53 + e - prec) (SpecFloat.emin prec emax) - e) with 0.
  - reflexivity.
  - unfold SpecFloat.emin, prec, emax. lia.
Qed.

Lemma binary_round_aux_canonical (s : bool) (m : positive) (e : Z) :
  Zpos (digits2_pos m) = 53 -> -1074 <= e <= 971 ->
  binary_round_aux prec emax s (Zpos m) e loc_Exact = S754_finite s m e.
Proof.
  intros Hd He. unfold binary_round_aux.
  rewrite (shr_fexp_canonical m e Hd) by lia. cbn [shr_m loc_of_shr_record round_nearest_even].
  rewrite (shr_fexp_canonical m e Hd) by lia. cbn [shr_m].
  replace (e <=? emax - prec) with true; [reflexivity|].
  symmetry. apply Z.leb_le. unfold emax, prec. lia.
Qed.

Lemma binary_round_small (s : bool) (p : positive) :
  Zpos p < 2 ^ 53 ->
  exists m e,
    binary_round prec emax s p 0 = S754_finite s m e
    /\ Zpos (digits2_pos m) = 53 /\ -52 <= e <= 0.
Proof.
  intros Hp. pose proof (digits2_pos_small p Hp) as Hd.
  unfold binary_round.
  replace (fexp prec emax (Zpos (digits2_pos p) + 0)) with (Zpos (digits2_pos p) - 53)
    by (unfold fexp, SpecFloat.emin, prec, emax; lia).
  unfold shl_align.
  destruct (Zpos (digits2_pos p) - 53 - 0) as [|q|q] eqn:Hshift.
  - exists p, 0. split; [|lia].
    apply binary_round_aux_canonical; lia.
  - lia.
  - exists (Pos.iter xO p q), (Zpos (digits2_pos p) - 53).
    assert (Hq : Zpos (digits2_pos (Pos.iter xO p q)) = 53)
      by (rewrite digits2_pos_iter_xO; lia).
    split; [|lia]. apply binary_round_aux_canonical; lia.
Qed.

Lemma toNumber_small (z : Z) :
  Z.abs z < 2 ^ 53 ->
  Prim2SF (Binary64.toNumber z) = S754_zero false
  \/ exists s m e, Prim2SF (Binary64.toNumber z) = S754_finite s m e.
Proof.
  intros Hz. unfold Binary64.toNumber, binary_normalize. destruct z as [|p|p].
  - left. reflexivity.
  - right. destruct (binary_round_small false p) as (m & e & -> & Hd & He); [lia|].
    exists false, m, e. apply Prim2SF_SF2Prim.
    cbn [valid_binary SpecFloat.valid_binary]. unfold bounded, canonical_mantissa, fexp.
    rewrite Hd. apply andb_true_intro. split.
    + apply Z.eqb_eq. unfold SpecFloat.emin, prec, emax. lia.
    + apply Z.leb_le. unfold emax, prec. lia.
  - right. destruct (binary_round_small true p) as (m & e & -> & Hd & He); [lia|].
    exists true, m, e. apply Prim2SF_SF2Prim.
    cbn [valid_binary SpecFloat.valid_binary]. unfold bounded, canonical_mantissa, fexp.
    rewrite Hd. apply andb_true_intro. split.
    + apply Z.eqb_eq. unfold SpecFloat.emin, prec, emax. lia.
    + apply Z.leb_le. unfold emax, prec. lia.
Qed.

(** *** Binary64 numbers *)

Lemma ltb_trans (x y z : PrimFloat.float) :
  PrimFloat.ltb x y = true -> PrimFloat.ltb y z = true -> PrimFloat.ltb x z = true.
Proof. rewrite !ltb_spec. apply SFltb_trans. Qed.

Lemma leb_ltb_trans (x y z : PrimFloat.float) :
  PrimFloat.leb x y = true -> PrimFloat.ltb y z = true -> PrimFloat.ltb x z = true.
Proof. rewrite leb_spec, !ltb_spec. apply SFleb_ltb_trans. Qed.

Lemma ltb_leb (x y : PrimFloat.float) :
  PrimFloat.ltb x y = true -> PrimFloat.leb x y = true.
Proof. rewrite leb_spec, ltb_spec. apply SFltb_leb. Qed.

Lemma ltb_false_leb (x y : PrimFloat.float) :
  Binary64.notNaN x -> Binary64.notNaN y -> PrimFloat.ltb x y = false -> PrimFloat.leb y x = true.
Proof. rewrite leb_spec, ltb_spec. apply SFltb_false_leb. Qed.

Lemma leb_refl (x : PrimFloat.float) : Binary64.notNaN x -> PrimFloat.leb x x = true.
Proof. rewrite leb_spec. apply SFleb_refl. Qed.

Lemma eqb_refl (x : PrimFloat.float) : Binary64.notNaN x -> PrimFloat.eqb x x = true.
Proof. rewrite eqb_spec. apply SFeqb_refl. Qed.

Lemma ltb_irrefl (x : PrimFloat.float) : PrimFloat.ltb x x = false.
Proof. rewrite ltb_spec. apply SFltb_irrefl. Qed.

Lemma ltb_not_eqb (x y : PrimFloat.float) :
  PrimFloat.ltb x y = true -> PrimFloat.eqb x y = false.
Proof. rewrite ltb_spec, eqb_spec. apply SFltb_not_eqb. Qed.

(** A number that is no NaN and not above [-Infinity] is [-Infinity]. *)
Lemma ltb_not_eqb_sym (x y : PrimFloat.float) :
  PrimFloat.ltb x y = true -> PrimFloat.eqb y x = false.
Proof. rewrite ltb_spec, eqb_spec. apply SFltb_not_eqb_sym. Qed.

Lemma ltb_not_leb (x y : PrimFloat.float) :
  PrimFloat.ltb x y = true -> PrimFloat.leb y x = false.
Proof. rewrite ltb_spec, leb_spec. apply SFltb_not_leb. Qed.

Lemma gt_neg_infinity_false (x : PrimFloat.float) :
  Binary64.notNaN x -> Binary64.gt x PrimFloat.neg_infinity = false -> x = PrimFloat.neg_infinity.
Proof.
  unfold Binary64.gt. rewrite ltb_spec. intros Hx H.
  apply Prim2SF_inj. replace (Prim2SF PrimFloat.neg_infinity) with (S754_infinity true) in *
    by reflexivity.
  now apply SFltb_neg_infinity.
Qed.

(** A draw is a zero or a positive finite number. *)
Lemma draw_shape (r : Binary64.Draw) :
  (exists s, Prim2SF (Binary64.draw_value r) = S754_zero s)
  \/ (exists m e, Prim2SF (Binary64.draw_value r) = S754_finite false m e).
Proof.
  pose proof (Binary64.draw_range r) as H. unfold Binary64.in_unit_interval in H.
  apply andb_true_iff in H. destruct H as [H0 H1].
  rewrite leb_spec in H0. rewrite ltb_spec in H1.
  replace (Prim2SF 0%float) with (S754_zero false) in H0 by reflexivity.
  replace (Prim2SF 1%float) with (S754_finite false 4503599627370496 (-52)) in H1
    by reflexivity.
  destruct (Prim2SF (Binary64.draw_value r)) as [s|s| |s m e].
  - left. eauto.
  - destruct s; discriminate.
  - discriminate.
  - destruct s; [discriminate|]. right. eauto.
Qed.

Section Scores.

Context {engine : ChessEngine}.

Lemma noiseScale_shape (depth : Z) :
  exists my ey, Prim2SF (Binary64.noiseScale depth) = S754_finite false my ey.
Proof.
  unfold Binary64.noiseScale. destruct (depth =? 2)%Z; eexists; eexists; reflexivity.
Qed.

(** The noise is a zero or a non-negative number. *)
Lemma noiseAt_shape (scale : PrimFloat.float) (e : Binary64.Entropy) (i : nat) :
  (exists my ey, Prim2SF scale = S754_finite false my ey) ->
  (exists s, Prim2SF (Binary64.noiseAt scale e i) = S754_zero s)
  \/ Binary64.signed false (Prim2SF (Binary64.noiseAt scale e i)).
Proof.
  intros (my & ey & Hscale). unfold Binary64.noiseAt.
  rewrite mul_spec, Hscale. apply SFmul_nonneg. apply draw_shape.
Qed.

Lemma noiseAt_nonneg (scale : PrimFloat.float) (e : Binary64.Entropy) (i : nat) :
  (exists my ey, Prim2SF scale = S754_finite false my ey) ->
  PrimFloat.leb 0%float (Binary64.noiseAt scale e i) = true.
Proof.
  intros Hscale. rewrite leb_spec.
  replace (Prim2SF 0%float) with (S754_zero false) by reflexivity.
  destruct (noiseAt_shape scale e i Hscale) as [[s H]|[H|[H|(m & e' & H)]]];
    rewrite H; reflexivity.
Qed.

Lemma sumZ_signedValue_bound (l : list Piece) :
  Z.abs (sumZ (map signedValue l)) <= 9 * Z.of_nat (List.length l).
Proof.
  induction l as [|pc l IH]; cbn [map sumZ fold_right List.length].
  - simpl. lia.
  - fold (sumZ (map signedValue l)). pose proof (signedValue_bound pc). lia.
Qed.

(** *** The evaluation is an integer, and exact *)

Lemma integersFrom_In (lo : Z) (n : nat) (a : Z) :
  lo <= a < lo + Z.of_nat n -> In a (Binary64.integersFrom lo n).
Proof.
  intros H. unfold Binary64.integersFrom. apply in_map_iff.
  exists (Z.to_nat (a - lo)). split; [lia|]. apply in_seq. lia.
Qed.

(** The small integers convert as the primitive conversion does. *)
Lemma toNumber_fromInt_run :
  forallb (fun a => Leibniz.eqb (Binary64.toNumber a) (Binary64.fromInt a))
    (Binary64.integersFrom (-585) (Z.to_nat 1171)) = true.
Proof. vm_compute. reflexivity. Qed.

(** Adding the value of a piece to an integer between -576 and 576 is
    exact. *)
Lemma add_piece_run :
  forallb (fun a =>
    forallb (fun pc =>
      Leibniz.eqb
        (PrimFloat.add (Binary64.fromInt a)
           (PrimFloat.mul (Binary64.pieceValues (type pc)) (Binary64.multiplier (color pc))))
        (Binary64.fromInt (a + signedValue pc)))
      Binary64.allPieces)
    (Binary64.integersFrom (-576) (Z.to_nat 1153)) = true.
Proof. vm_compute. reflexivity. Qed.

Lemma toNumber_fromInt (a : Z) :
  Z.abs a <= 585 -> Binary64.toNumber a = Binary64.fromInt a.
Proof.
  intros Ha. apply Leibniz.eqb_spec.
  apply (proj1 (forallb_forall _ _) toNumber_fromInt_run a).
  apply integersFrom_In. rewrite Z2Nat.id by lia. lia.
Qed.

(** The small integers are in their order as binary64 numbers, and
    adding zero keeps them. *)
Lemma fromInt_succ_run :
  forallb (fun a => PrimFloat.ltb (Binary64.fromInt a) (Binary64.fromInt (a + 1)))
    (Binary64.integersFrom (-585) (Z.to_nat 1170)) = true.
Proof. vm_compute. reflexivity. Qed.

Lemma fromInt_add_zero_run :
  forallb (fun a => Leibniz.eqb (PrimFloat.add (Binary64.fromInt a) 0%float)
                                (Binary64.fromInt a))
    (Binary64.integersFrom (-585) (Z.to_nat 1171)) = true.
Proof. vm_compute. reflexivity. Qed.

Lemma toNumber_succ (a : Z) :
  -585 <= a < 585 ->
  PrimFloat.ltb (Binary64.toNumber a) (Binary64.toNumber (a + 1)) = true.
Proof.
  intros Ha. rewrite !toNumber_fromInt by lia.
  apply (proj1 (forallb_forall _ _) fromInt_succ_run a).
  apply integersFrom_In. rewrite Z2Nat.id by lia. lia.
Qed.

Lemma toNumber_add_zero (a : Z) :
  Z.abs a <= 585 -> PrimFloat.add (Binary64.toNumber a) 0%float = Binary64.toNumber a.
Proof.
  intros Ha. rewrite !toNumber_fromInt by lia. apply Leibniz.eqb_spec.
  apply (proj1 (forallb_forall _ _) fromInt_add_zero_run a).
  apply integersFrom_In. rewrite Z2Nat.id by lia. lia.
Qed.

Lemma toNumber_ltb (x y : Z) :
  -585 <= x -> x < y -> y <= 585 ->
  PrimFloat.ltb (Binary64.toNumber x) (Binary64.toNumber y) = true.
Proof.
  intros Hx Hxy Hy.
  replace y with (x + 1 + Z.of_nat (Z.to_nat (y - x - 1))) in * by lia.
  induction (Z.to_nat (y - x - 1)) as [|k IH].
  - rewrite Z.add_0_r. apply toNumber_succ. lia.
  - eapply ltb_trans; [apply IH; lia|].
    replace (x + 1 + Z.of_nat (S k)) with (x + 1 + Z.of_nat k + 1) by lia.
    apply toNumber_succ. lia.
Qed.

(** The comparison of two small integers as binary64 numbers is their
    comparison as integers. *)
Lemma toNumber_leb_inv (x y : Z) :
  Z.abs x <= 585 -> Z.abs y <= 585 ->
  PrimFloat.leb (Binary64.toNumber x) (Binary64.toNumber y) = true -> x <= y.
Proof.
  intros Hx Hy Hle. destruct (Z.le_gt_cases x y) as [H|H]; [exact H|exfalso].
  assert (Hlt : PrimFloat.ltb (Binary64.toNumber y) (Binary64.toNumber x) = true)
    by (apply toNumber_ltb; lia).
  apply ltb_not_leb in Hlt. congruence.
Qed.

Lemma add_piece_exact (a : Z) (pc : Piece) :
  Z.abs a <= 576 ->
  PrimFloat.add (Binary64.toNumber a)
    (PrimFloat.mul (Binary64.pieceValues (type pc)) (Binary64.multiplier (color pc)))
  = Binary64.toNumber (a + signedValue pc).
Proof.
  intros Ha. pose proof (signedValue_bound pc) as Hpc.
  rewrite !toNumber_fromInt by lia. apply Leibniz.eqb_spec.
  assert (Hin : In a (Binary64.integersFrom (-576) (Z.to_nat 1153))).
  { apply integersFrom_In. rewrite Z2Nat.id by lia. lia. }
  assert (Hpiece : In pc Binary64.allPieces).
  { destruct pc as [[] []]; simpl; tauto. }
  exact (proj1 (forallb_forall _ _)
           (proj1 (forallb_forall _ _) add_piece_run a Hin) pc Hpiece).
Qed.

Lemma evaluateRow_toNumber (row : list (option Piece)) (a : Z) (k : nat) :
  Z.abs a <= 9 * Z.of_nat k ->
  (k + List.length (occupiedSquares [row]) <= 64)%nat ->
  Binary64.evaluateRow (Binary64.toNumber a) row = Binary64.toNumber (evaluateRow a row).
Proof.
  revert a k. induction row as [|sq row IH]; intros a k Ha Hk; [reflexivity|].
  assert (Hocc : occupiedSquares [sq :: row]
                 = match sq with Some pc => [pc] | None => [] end ++ occupiedSquares [row]).
  { unfold occupiedSquares. simpl. now rewrite !app_nil_r. }
  rewrite Hocc in Hk. unfold Binary64.evaluateRow, evaluateRow in *. cbn [fold_left].
  destruct sq as [pc|]; cbn [app List.length] in Hk.
  - assert (Hsmall : Z.abs a <= 576) by lia.
    rewrite (add_piece_exact a pc Hsmall), signedValue_multiplier.
    apply (IH _ (S k)); [|lia]. pose proof (signedValue_bound pc). lia.
  - now apply (IH _ k).
Qed.

Lemma evaluateRows_toNumber (b : Board) (a : Z) (k : nat) :
  Z.abs a <= 9 * Z.of_nat k ->
  (k + List.length (occupiedSquares b) <= 64)%nat ->
  fold_left Binary64.evaluateRow b (Binary64.toNumber a)
  = Binary64.toNumber (fold_left evaluateRow b a).
Proof.
  revert a k. induction b as [|row b IH]; intros a k Ha Hk; simpl; [reflexivity|].
  assert (Hsplit : occupiedSquares (row :: b) = occupiedSquares [row] ++ occupiedSquares b).
  { unfold occupiedSquares. simpl. now rewrite app_nil_r. }
  rewrite Hsplit, length_app in Hk.
  rewrite (evaluateRow_toNumber row a k Ha) by lia.
  apply (IH _ (k + List.length (occupiedSquares [row]))%nat); [|lia].
  rewrite evaluateRow_sum.
  pose proof (sumZ_signedValue_bound (occupiedSquares [row])). lia.
Qed.

(** On a board of at most 64 pieces the evaluation the code computes on
    binary64 numbers is the integer evaluation. *)
Lemma evaluatePosition_toNumber (c : Chess) :
  (List.length (occupiedSquares (board c)) <= 64)%nat ->
  Binary64.evaluatePosition c = Binary64.toNumber (evaluatePosition c).
Proof.
  intros Hlen. unfold Binary64.evaluatePosition, Binary64.evaluateBoard.
  change 0%float with (Binary64.toNumber 0).
  apply (evaluateRows_toNumber _ 0 0); simpl; lia.
Qed.

Lemma evaluationAfter_bound (game : Chess) (i : nat) :
  Binary64.standardBoards game ->
  Z.abs (evaluationAfter game i) <= 576.
Proof.
  intros Hboards. unfold evaluationAfter.
  destruct (nth_error (moves game) i) as [mv|] eqn:Hnth; [|simpl; lia].
  destruct (resultingPosition game mv) as [c|] eqn:Hres; [|simpl; lia].
  pose proof (Hboards mv c (nth_error_In _ _ Hnth) Hres) as Hlen.
  unfold evaluatePosition. rewrite evaluateBoard_sum.
  pose proof (sumZ_signedValue_bound (occupiedSquares (board c))) as Hsum.
  lia.
Qed.

Lemma evaluationAfter_small (game : Chess) (i : nat) :
  Binary64.standardBoards game ->
  Z.abs (evaluationAfter game i) < 2 ^ 53.
Proof.
  intros Hboards. pose proof (evaluationAfter_bound game i Hboards).
  assert (576 < 2 ^ 53) by reflexivity. lia.
Qed.

Lemma noisyScore_notNaN (game : Chess) (scale : PrimFloat.float)
    (e : Binary64.Entropy) (i : nat) :
  Binary64.standardBoards game ->
  (exists my ey, Prim2SF scale = S754_finite false my ey) ->
  Binary64.notNaN (Binary64.noisyScore game scale e i).
Proof.
  intros Hboards Hscale. unfold Binary64.notNaN, Binary64.noisyScore.
  rewrite add_spec. apply SFadd_notNaN.
  - destruct (toNumber_small (evaluationAfter game i) (evaluationAfter_small game i Hboards))
      as [H|H]; [left; eauto | right; exact H].
  - destruct (noiseAt_shape scale e i Hscale) as [[s H]|H]; [rewrite H; discriminate|].
    eapply signed_notNaN. exact H.
Qed.

(** With its draw at zero a move scores its evaluation. *)
Lemma noisyScore_zero_draw (game : Chess) (depth : Z) (e : Binary64.Entropy) (i : nat) :
  Binary64.standardBoards game ->
  Binary64.draw_value (Binary64.source e (Binary64.cursor e + i)) = 0%float ->
  Binary64.noisyScore game (Binary64.noiseScale depth) e i
  = Binary64.toNumber (evaluationAfter game i).
Proof.
  intros Hboards Hdraw. unfold Binary64.noisyScore, Binary64.noiseAt. rewrite Hdraw.
  assert (Hzero : PrimFloat.mul 0%float (Binary64.noiseScale depth) = 0%float).
  { unfold Binary64.noiseScale. destruct (depth =? 2)%Z; reflexivity. }
  rewrite Hzero. apply toNumber_add_zero.
  pose proof (evaluationAfter_bound game i Hboards). lia.
Qed.

(** *** The loop of [findBestMove] *)

Lemma advance_064 (e : Binary64.Entropy) : Binary64.advance 0 e = e.
Proof. destruct e as [src k]. unfold Binary64.advance. simpl. now rewrite Nat.add_0_r. Qed.

Lemma advance_advance64 (n m : nat) (e : Binary64.Entropy) :
  Binary64.advance m (Binary64.advance n e) = Binary64.advance (n + m) e.
Proof. unfold Binary64.advance. simpl. now rewrite Nat.add_assoc. Qed.

Variables (g : Chess) (depth : Z).

Lemma scoreMove_run64 (mv : string) (c : Chess) (e : Binary64.Entropy) :
  (List.length (occupiedSquares (board c)) <= 64)%nat ->
  resultingPosition g mv = Some c ->
  Binary64.scoreMove g depth mv e =
  (Js.Returned
     (PrimFloat.add (Binary64.toNumber (evaluatePosition c))
        (PrimFloat.mul (Binary64.draw_value (Binary64.source e (Binary64.cursor e)))
           (Binary64.noiseScale depth))),
   Binary64.advance 1 e).
Proof.
  intros Hlen. unfold resultingPosition, Binary64.scoreMove, Binary64.bind,
    Binary64.new_Chess, Binary64.call_move.
  destruct (loadFen (fen g)) as [gameCopy|]; [|discriminate].
  unfold Binary64.ret.
  destruct (move gameCopy (San mv)); intros H; inversion H; subst; cbn [fst];
    now rewrite evaluatePosition_toNumber.
Qed.

Lemma noisyScore_at64 (e0 : Binary64.Entropy) (i : nat) (mv : string) (c : Chess) :
  nth_error (moves g) i = Some mv ->
  resultingPosition g mv = Some c ->
  Binary64.noisyScore g (Binary64.noiseScale depth) e0 i =
  PrimFloat.add (Binary64.toNumber (evaluatePosition c))
    (PrimFloat.mul (Binary64.draw_value (Binary64.source e0 (Binary64.cursor e0 + i)))
       (Binary64.noiseScale depth)).
Proof.
  intros Hnth Hres. unfold Binary64.noisyScore, evaluationAfter, Binary64.noiseAt.
  now rewrite Hnth, Hres.
Qed.

Lemma bestSoFar_step64 (e0 : Binary64.Entropy) (n : nat) (mv : string)
    (best : option string * PrimFloat.float) :
  (forall j, Binary64.notNaN (Binary64.noisyScore g (Binary64.noiseScale depth) e0 j)) ->
  nth_error (moves g) n = Some mv ->
  Binary64.bestSoFar g (Binary64.noiseScale depth) e0 n best ->
  Binary64.bestSoFar g (Binary64.noiseScale depth) e0 (S n)
    (if Binary64.gt (Binary64.noisyScore g (Binary64.noiseScale depth) e0 n) (snd best)
     then (Some mv, Binary64.noisyScore g (Binary64.noiseScale depth) e0 n)
     else best).
Proof.
  intros Hnan Hnth Hbest. set (score := Binary64.noisyScore g (Binary64.noiseScale depth) e0) in *.
  destruct n as [|n].
  - cbn [Binary64.bestSoFar] in Hbest. subst best. rewrite Hnth. cbn [snd].
    exists 0%nat, mv. split; [lia|]. split; [exact Hnth|]. split.
    + destruct (Binary64.gt (score 0%nat) PrimFloat.neg_infinity) eqn:Hgt; [reflexivity|].
      f_equal. symmetry. exact (gt_neg_infinity_false _ (Hnan 0%nat) Hgt).
    + split.
      * intros j Hj. assert (j = 0)%nat by lia. subst. apply leb_refl, Hnan.
      * intros j Hj. lia.
  - destruct Hbest as (i & found & Hi & Hfound & -> & Hmax & Hfirst).
    cbn [snd]. fold score in Hmax, Hfirst. fold score.
    destruct (Binary64.gt (score (S n)) (score i)) eqn:Hgt; unfold Binary64.gt in Hgt.
    + exists (S n), mv. repeat split; auto.
      * intros j Hj. destruct (Nat.eq_dec j (S n)) as [->|Hne]; [apply leb_refl, Hnan|].
        apply ltb_leb. eapply leb_ltb_trans; [apply Hmax; lia | exact Hgt].
      * intros j Hj. eapply leb_ltb_trans; [apply Hmax; lia | exact Hgt].
    + exists i, found. repeat split; auto.
      intros j Hj. destruct (Nat.eq_dec j (S n)) as [->|Hne].
      * apply ltb_false_leb; auto.
      * apply Hmax. lia.
Qed.

Lemma forEachMove_run64 (e0 : Binary64.Entropy) :
  playsItsMoves g ->
  Binary64.standardBoards g ->
  (forall j, Binary64.notNaN (Binary64.noisyScore g (Binary64.noiseScale depth) e0 j)) ->
  forall (ms pre : list string) (best : option string * PrimFloat.float),
    moves g = pre ++ ms ->
    Binary64.bestSoFar g (Binary64.noiseScale depth) e0 (List.length pre) best ->
    exists best',
      Binary64.forEachMove g depth ms best (Binary64.advance (List.length pre) e0) =
      (Js.Returned best', Binary64.advance (List.length (moves g)) e0)
      /\ Binary64.bestSoFar g (Binary64.noiseScale depth) e0 (List.length (moves g)) best'.
Proof.
  intros Hplays Hboards Hnan.
  induction ms as [|mv rest IH]; intros pre best Hsplit Hbest.
  - rewrite app_nil_r in Hsplit. rewrite Hsplit. exists best. split; [reflexivity | exact Hbest].
  - assert (Hnth : nth_error (moves g) (List.length pre) = Some mv).
    { rewrite Hsplit, nth_error_app2, Nat.sub_diag by lia. reflexivity. }
    destruct (resultingPosition g mv) as [c|] eqn:Hres.
    2:{ exfalso. apply (Hplays mv); [|exact Hres].
        rewrite Hsplit. apply in_or_app. right. left. reflexivity. }
    cbn [Binary64.forEachMove]. unfold Binary64.bind at 1.
    rewrite (scoreMove_run64 mv c _ (Hboards mv c (nth_error_In _ _ Hnth) Hres) Hres).
    cbn [Binary64.advance Binary64.source Binary64.cursor].
    rewrite <- (noisyScore_at64 e0 _ mv c Hnth Hres).
    change (Binary64.mkEntropy (Binary64.source e0)
              (Binary64.cursor e0 + List.length pre + 1))
      with (Binary64.advance 1 (Binary64.advance (List.length pre) e0)).
    rewrite advance_advance64.
    replace (List.length pre + 1)%nat with (List.length (pre ++ [mv]))
      by (rewrite length_app; reflexivity).
    apply IH.
    + rewrite Hsplit, <- app_assoc. reflexivity.
    + rewrite length_app, Nat.add_1_r. apply bestSoFar_step64; assumption.
Qed.

Lemma findBestMove_firstBest64 (e0 : Binary64.Entropy) :
  moves g <> [] ->
  playsItsMoves g ->
  Binary64.standardBoards g ->
  exists i found,
    Binary64.findBestMove g depth e0 =
    (Js.Returned (Some found), Binary64.advance (List.length (moves g)) e0)
    /\ Binary64.firstBest g (Binary64.noiseScale depth) e0 i found.
Proof.
  intros Hne Hplays Hboards.
  assert (Hnan : forall j, Binary64.notNaN (Binary64.noisyScore g (Binary64.noiseScale depth) e0 j)).
  { intros j. apply noisyScore_notNaN; [exact Hboards | apply noiseScale_shape]. }
  destruct (forEachMove_run64 e0 Hplays Hboards Hnan (moves g) []
              (nth_error (moves g) 0, PrimFloat.neg_infinity))
    as (best' & Hrun & Hbest); [reflexivity | reflexivity |].
  cbn [List.length] in Hrun. rewrite advance_064 in Hrun.
  assert (Hlen : exists n, List.length (moves g) = S n).
  { destruct (moves g); [congruence | eexists; reflexivity]. }
  destruct Hlen as [n Hlen]. rewrite Hlen in Hbest. cbn [Binary64.bestSoFar] in Hbest.
  destruct Hbest as (i & found & Hi & Hfound & -> & Hmax & Hfirst).
  exists i, found. split.
  - unfold Binary64.findBestMove, Binary64.bind. rewrite Hrun. reflexivity.
  - unfold Binary64.firstBest. rewrite Hlen. auto.
Qed.

End Scores.

Section Depth.

Context {engine : ChessEngine}.

(** The depth reaches the loop through [noiseScale] alone. *)
Lemma forEachMove_depth64 (game : Chess) (d1 d2 : Z) :
  Binary64.noiseScale d1 = Binary64.noiseScale d2 ->
  forall ms best e,
    Binary64.forEachMove game d1 ms best e = Binary64.forEachMove game d2 ms best e.
Proof.
  intros Hscale. induction ms as [|mv rest IH]; intros best e; [reflexivity|].
  cbn [Binary64.forEachMove]. unfold Binary64.bind, Binary64.scoreMove, Binary64.bind.
  rewrite Hscale.
  destruct (Binary64.new_Chess (fen game) e) as [[gameCopy|] e1]; [|reflexivity].
  destruct (Binary64.call_move gameCopy (San mv) e1) as [[played|] e2]; [|reflexivity].
  destruct (Binary64.Math_random e2) as [[r|] e3]; [|reflexivity].
  unfold Binary64.ret. apply IH.
Qed.

Lemma findBestMove_depth64 (game : Chess) (d1 d2 : Z) (e : Binary64.Entropy) :
  Binary64.noiseScale d1 = Binary64.noiseScale d2 ->
  Binary64.findBestMove game d1 e = Binary64.findBestMove game d2 e.
Proof.
  intros Hscale. unfold Binary64.findBestMove, Binary64.bind.
  now rewrite (forEachMove_depth64 game d1 d2 Hscale).
Qed.

End Depth.

(** *** The noise is below its scale *)

Lemma pos_mul_pow2 (m : positive) :
  Pos.mul m 4503599627370496 = Pos.iter xO m 52.
Proof. rewrite Pos.mul_comm. reflexivity. Qed.

Lemma digits2_pos_succ (p : positive) :
  Zpos (digits2_pos (Pos.succ p)) <= Zpos (digits2_pos p) + 1.
Proof.
  destruct (digits2_pos_bounds p) as [_ Hhi].
  destruct (digits2_pos_bounds (Pos.succ p)) as [Hlo _].
  rewrite Pos2Z.inj_succ in Hlo.
  destruct (Z.le_gt_cases (Zpos (digits2_pos (Pos.succ p))) (Zpos (digits2_pos p) + 1))
    as [H|H]; [exact H|exfalso].
  assert (Hpow : 2 ^ (Zpos (digits2_pos p) + 2) <= 2 ^ Zpos (digits2_pos (Pos.succ p)))
    by (apply Z.pow_le_mono_r; lia).
  replace (Zpos (digits2_pos p) + 2) with (Z.succ (Z.succ (Zpos (digits2_pos p)))) in Hpow by lia.
  rewrite !Z.pow_succ_r in Hpow by lia. lia.
Qed.

(** What it is for a finite number to be a binary64 number. *)
Lemma bounded_canonical (m : positive) (e : Z) :
  bounded prec emax m e = true ->
  (Zpos (digits2_pos m) = 53 /\ -1074 <= e <= 971)
  \/ (Zpos (digits2_pos m) < 53 /\ e = -1074).
Proof.
  unfold bounded, canonical_mantissa, fexp, SpecFloat.emin, prec, emax.
  intros H. apply andb_true_iff in H. destruct H as [H1 H2].
  apply Z.eqb_eq in H1. apply Z.leb_le in H2. lia.
Qed.

Lemma SFltb_finite (m1 m2 : positive) (e1 e2 : Z) :
  SFltb (S754_finite false m1 e1) (S754_finite false m2 e2) = true ->
  e1 < e2 \/ (e1 = e2 /\ Zpos m1 < Zpos m2).
Proof.
  unfold SFltb. cbn [SFcompare]. rewrite Pos.compare_cont_spec. unfold Pos.switch_Eq.
  destruct (Z.compare_spec e1 e2) as [->|H|H]; [|auto|discriminate].
  destruct (Pos.compare_spec m1 m2) as [H|H|H]; try discriminate.
  intros _. right. split; [reflexivity | now apply Pos2Z.pos_lt_pos].
Qed.

Lemma SFltb_exponent (m1 m2 : positive) (e1 e2 : Z) :
  e1 < e2 -> SFltb (S754_finite false m1 e1) (S754_finite false m2 e2) = true.
Proof.
  intros H. unfold SFltb. cbn [SFcompare].
  destruct (Z.compare_spec e1 e2); [lia | reflexivity | lia].
Qed.

(** A binary64 number below 1 has an exponent of at most -53. *)
Lemma below_one (m : positive) (e : Z) :
  bounded prec emax m e = true ->
  SFltb (S754_finite false m e) Binary64.sf_one = true ->
  e <= -53.
Proof.
  intros Hb Hlt. destruct (bounded_canonical m e Hb) as [[Hd He]|[Hd He]]; [|lia].
  apply SFltb_finite in Hlt. destruct Hlt as [Hlt|[-> Hlt]]; [lia|exfalso].
  destruct (digits2_pos_bounds m) as [Hlo _]. rewrite Hd in Hlo.
  change (2 ^ 53) with 9007199254740992 in Hlo. lia.
Qed.

Lemma shr_fexp_shift (m : positive) (E n : Z) :
  fexp prec emax (Zpos (digits2_pos m) + E) - E = n ->
  shr_fexp prec emax (Zpos m) E loc_Exact
  = shr (Build_shr_record (Zpos m) false false) E n.
Proof. intros <-. reflexivity. Qed.

Lemma shr_fexp_fits (q : positive) (e : Z) :
  Zpos (digits2_pos q) <= 53 -> e = -1074 ->
  shr_fexp prec emax (Zpos q) e loc_Exact = (Build_shr_record (Zpos q) false false, e).
Proof.
  intros Hd ->. rewrite (shr_fexp_shift q (-1074) 0); [reflexivity|].
  unfold fexp, SpecFloat.emin, prec, emax. lia.
Qed.

(** A rounding that ends on the least exponent is below every number of
    a greater exponent. *)
Lemma round_at_least_exponent (q : Z) (es : Z) :
  q = 0 \/ (exists p, q = Zpos p /\ Zpos (digits2_pos p) <= 53) ->
  -1074 < es ->
  SFltb (let '(mrs, e) := shr_fexp prec emax q (-1074) loc_Exact in
         match shr_m mrs with
         | Z0 => S754_zero false
         | Zpos m => if e <=? emax - prec then S754_finite false m e else S754_infinity false
         | Zneg _ => S754_nan
         end) (Binary64.sf_scale es) = true.
Proof.
  intros [->|(p & -> & Hd)] Hes.
  - reflexivity.
  - rewrite (shr_fexp_fits p (-1074) Hd eq_refl). cbn [shr_m].
    change (-1074 <=? emax - prec) with true. cbv iota.
    apply SFltb_exponent. lia.
Qed.

(** The product of a binary64 number below 1 with 2 or with 1/2 is
    below 2 or below 1/2. *)
Lemma SFmul_below (m : positive) (e es : Z) :
  es = -51 \/ es = -53 ->
  bounded prec emax m e = true ->
  SFltb (S754_finite false m e) Binary64.sf_one = true ->
  SFltb (SFmul prec emax (S754_finite false m e) (Binary64.sf_scale es)) (Binary64.sf_scale es) = true.
Proof.
  intros Hes Hb Hlt. pose proof (below_one m e Hb Hlt) as He.
  unfold Binary64.sf_scale at 1. cbn [SFmul xorb]. rewrite pos_mul_pow2.
  unfold binary_round_aux.
  assert (Hdm : Zpos (digits2_pos (Pos.iter xO m 52)) = Zpos (digits2_pos m) + 52)
    by apply digits2_pos_iter_xO.
  destruct (bounded_canonical m e Hb) as [[Hd Hrange]|[Hd Hmin]].
  - (* 53 digits *)
    destruct (Z.le_gt_cases (-1074) (e + es + 52)) as [Hfit|Hunder].
    + (* the product has 53 digits too: an exact shift by 52 *)
      rewrite (shr_fexp_shift _ (e + es) 52)
        by (rewrite Hdm, Hd; unfold fexp, SpecFloat.emin, prec, emax; lia).
      change (shr (Build_shr_record (Zpos (Pos.iter xO m 52)) false false) (e + es) 52)
        with (Build_shr_record (Zpos m) false false, e + es + 52).
      cbn [shr_m loc_of_shr_record round_nearest_even].
      rewrite (shr_fexp_canonical m (e + es + 52) Hd) by lia. cbn [shr_m].
      replace (e + es + 52 <=? emax - prec) with true
        by (symmetry; apply Z.leb_le; unfold emax, prec; lia).
      apply SFltb_exponent. lia.
    + (* the product falls below the least exponent: a shift by 53 *)
      assert (es = -53 /\ e = -1074) as [-> ->] by lia.
      rewrite (shr_fexp_shift _ (-1074 + -53) 53)
        by (rewrite Hdm, Hd; unfold fexp, SpecFloat.emin, prec, emax; lia).
      destruct m as [p|p|].
      * change (shr (Build_shr_record (Zpos (Pos.iter xO (xI p) 52)) false false) (-1074 + -53) 53)
          with (Build_shr_record (Zpos p) true false, -1074).
        cbn [shr_m loc_of_shr_record round_nearest_even].
        apply (round_at_least_exponent _ (-53)); [|lia]. right.
        cbn [digits2_pos] in Hd. rewrite Pos2Z.inj_succ in Hd.
        destruct (Z.even (Zpos p)).
        -- exists p. split; [reflexivity | lia].
        -- exists (Pos.succ p). split; [now rewrite <- Pos.add_1_r|].
           pose proof (digits2_pos_succ p). lia.
      * change (shr (Build_shr_record (Zpos (Pos.iter xO (xO p) 52)) false false) (-1074 + -53) 53)
          with (Build_shr_record (Zpos p) false false, -1074).
        cbn [shr_m loc_of_shr_record round_nearest_even].
        apply (round_at_least_exponent _ (-53)); [|lia]. right.
        cbn [digits2_pos] in Hd. rewrite Pos2Z.inj_succ in Hd.
        exists p. split; [reflexivity | lia].
      * cbn in Hd. discriminate.
  - (* fewer than 53 digits, least exponent *)
    subst e. destruct Hes as [->| ->].
    + (* times 2: an exact shift by 51 *)
      rewrite (shr_fexp_shift _ (-1074 + -51) 51)
        by (rewrite Hdm; unfold fexp, SpecFloat.emin, prec, emax; lia).
      change (shr (Build_shr_record (Zpos (Pos.iter xO m 52)) false false) (-1074 + -51) 51)
        with (Build_shr_record (Zpos (xO m)) false false, -1074).
      cbn [shr_m loc_of_shr_record round_nearest_even].
      apply (round_at_least_exponent _ (-51)); [|lia]. right.
      exists (xO m). split; [reflexivity|].
      cbn [digits2_pos]. rewrite Pos2Z.inj_succ. lia.
    + (* times 1/2: a shift by 53 *)
      rewrite (shr_fexp_shift _ (-1074 + -53) 53)
        by (rewrite Hdm; unfold fexp, SpecFloat.emin, prec, emax; lia).
      destruct m as [p|p|].
      * change (shr (Build_shr_record (Zpos (Pos.iter xO (xI p) 52)) false false) (-1074 + -53) 53)
          with (Build_shr_record (Zpos p) true false, -1074).
        cbn [shr_m loc_of_shr_record round_nearest_even].
        apply (round_at_least_exponent _ (-53)); [|lia]. right.
        cbn [digits2_pos] in Hd. rewrite Pos2Z.inj_succ in Hd.
        destruct (Z.even (Zpos p)).
        -- exists p. split; [reflexivity | lia].
        -- exists (Pos.succ p). split; [now rewrite <- Pos.add_1_r|].
           pose proof (digits2_pos_succ p). lia.
      * change (shr (Build_shr_record (Zpos (Pos.iter xO (xO p) 52)) false false) (-1074 + -53) 53)
          with (Build_shr_record (Zpos p) false false, -1074).
        cbn [shr_m loc_of_shr_record round_nearest_even].
        apply (round_at_least_exponent _ (-53)); [|lia]. right.
        cbn [digits2_pos] in Hd. rewrite Pos2Z.inj_succ in Hd.
        exists p. split; [reflexivity | lia].
      * change (shr (Build_shr_record (Zpos (Pos.iter xO xH 52)) false false) (-1074 + -53) 53)
          with (Build_shr_record 0 true false, -1074).
        cbn [shr_m loc_of_shr_record round_nearest_even Z.even].
        apply (round_at_least_exponent _ (-53)); [|lia]. left. reflexivity.
Qed.

Lemma noiseScale_exponent (depth : Z) :
  exists es, (es = -51 \/ es = -53) /\ Prim2SF (Binary64.noiseScale depth) = Binary64.sf_scale es.
Proof.
  unfold Binary64.noiseScale. destruct (depth =? 2)%Z.
  - exists (-51). split; [now left | reflexivity].
  - exists (-53). split; [now right | reflexivity].
Qed.

(** [Math.random() * scale] is below [scale], in binary64. *)
Lemma noiseAt_below (depth : Z) (e : Binary64.Entropy) (i : nat) :
  PrimFloat.ltb (Binary64.noiseAt (Binary64.noiseScale depth) e i)
                (Binary64.noiseScale depth) = true.
Proof.
  unfold Binary64.noiseAt.
  set (r := Binary64.source e (Binary64.cursor e + i)).
  destruct (noiseScale_exponent depth) as (es & Hes & Hscale).
  rewrite ltb_spec, mul_spec, Hscale.
  pose proof (Binary64.draw_range r) as Hr. unfold Binary64.in_unit_interval in Hr.
  apply andb_true_iff in Hr. destruct Hr as [_ H1]. rewrite ltb_spec in H1.
  replace (Prim2SF 1%float) with Binary64.sf_one in H1 by reflexivity.
  pose proof (Prim2SF_valid (Binary64.draw_value r)) as Hv.
  destruct (draw_shape r) as [[s H]|(m & e' & H)]; rewrite H in *.
  - unfold Binary64.sf_scale. destruct s; reflexivity.
  - apply SFmul_below; assumption.
Qed.

End Binary64Facts.

(** ** The claims about the evaluator and the selection *)

(** C5. For every position, [evaluatePosition] is the sum, over the
    occupied squares of the board, of the fixed material value of the
    piece (pawn 1, knight 3, bishop 3, rook 5, queen 9, king 0), counted
    positive for a White piece and negative for a Black one; nothing else
    enters the score, and the function takes and changes no state.  On
    the standard starting position the score is 0. *)
Theorem evaluatePosition_material_sum :
  (forall (engine : ChessEngine) (game : Chess),
      evaluatePosition game = sumZ (map signedValue (occupiedSquares (board game))))
  /\ (forall pc : Piece,
        signedValue pc =
        match color pc, type pc with
        | White, Pawn => 1 | White, Knight => 3 | White, Bishop => 3
        | White, Rook => 5 | White, Queen => 9 | White, King => 0
        | Black, Pawn => -1 | Black, Knight => -3 | Black, Bishop => -3
        | Black, Rook => -5 | Black, Queen => -9 | Black, King => 0
        end)
  /\ @evaluatePosition Book.engine newChess = 0.
Proof.
  split; [|split].
  - intros engine game. unfold evaluatePosition. apply evaluateBoard_sum.
  - intros [[] []]; reflexivity.
  - reflexivity.
Qed.

(** C2, as the code has it.  On a position with no legal move the
    selection does not raise: it returns [undefined], at every
    difficulty; on a position with a legal move it returns one of the
    listed moves. *)
Theorem chooseMove_undefined_without_moves {engine : ChessEngine}
    (game : Chess) (d : Difficulty) (e : Js.Entropy) :
  playsItsMoves game ->
  exists result e',
    chooseMove game d (moves game) e = (Js.Returned result, e')
    /\ (moves game = [] ->
        result = None /\ forall depth, findBestMove game depth e = (Js.Returned None, e))
    /\ (moves game <> [] -> exists found, result = Some found /\ In found (moves game)).
Proof.
  intros Hplays. destruct (moves game) as [|m0 ms] eqn:Hms.
  - destruct (chooseMove_no_moves game d e Hms) as [e' Hrun].
    rewrite Hms in Hrun. exists None, e'. split; [exact Hrun|]. split.
    + intros _. split; [reflexivity | intros depth; now apply findBestMove_no_moves].
    + congruence.
  - assert (Hne : moves game <> []) by congruence.
    destruct (chooseMove_returns_listed game d e Hne Hplays) as (found & e' & Hrun & Hin).
    rewrite Hms in Hrun, Hin. exists (Some found), e'. split; [exact Hrun|]. split.
    + discriminate.
    + intros _. exists found. split; [reflexivity | exact Hin].
Qed.

Lemma chooseMove_undefined_on_checkmate :
  exists result e',
    @chooseMove Book.engine Book.foolsMateFen amateur (moves Book.foolsMateFen)
      (Js.mkEntropy Book.zeros 0) = (Js.Returned result, e')
    /\ (@moves Book.engine Book.foolsMateFen = [] ->
        result = None
        /\ forall depth,
             @findBestMove Book.engine Book.foolsMateFen depth (Js.mkEntropy Book.zeros 0)
             = (Js.Returned None, Js.mkEntropy Book.zeros 0))
    /\ (@moves Book.engine Book.foolsMateFen <> [] ->
        exists found, result = Some found /\ In found (@moves Book.engine Book.foolsMateFen)).
Proof.
  apply (@chooseMove_undefined_without_moves Book.engine Book.foolsMateFen amateur
           (Js.mkEntropy Book.zeros 0)).
  exact book_plays_foolsMate.
Defined.

(** C2 as stated fails: White is checkmated and has no legal move, and
    the selection returns ([undefined]) at each difficulty and for the
    hint; nothing is thrown. *)
Lemma selection_on_checkmate_does_not_raise :
  @moves Book.engine Book.foolsMateFen = []
  /\ (forall d : Difficulty,
        fst (@chooseMove Book.engine Book.foolsMateFen d (moves Book.foolsMateFen)
               (Js.mkEntropy Book.zeros 0)) = Js.Returned None)
  /\ fst (@findBestMove Book.engine Book.foolsMateFen 3 (Js.mkEntropy Book.zeros 0))
     <> Js.Thrown.
Proof.
  split; [reflexivity|]. split.
  - intros []; reflexivity.
  - discriminate.
Qed.

(** ** The excerpt's positions are positions of chess *)

Ltac book_standard :=
  let mv := fresh "mv" in
  let c := fresh "c" in
  let Hin := fresh "Hin" in
  let H := fresh "H" in
  intros mv c Hin; simpl in Hin;
  repeat (destruct Hin as [<-|Hin];
          [intro H; vm_compute in H; injection H as <-;
           apply Nat.leb_le; vm_compute; reflexivity|]);
  destruct Hin.

Lemma book_standard_start : @Binary64.standardBoards Book.engine Book.startFen.
Proof. book_standard. Qed.

Lemma book_standard_pawnEnding : @Binary64.standardBoards Book.engine Book.pawnEndingFen.
Proof. book_standard. Qed.

(** ** The claims about the selection, on binary64 numbers *)

Section Binary64Claims.

Import PrimFloat.

(** C4. On a position with a legal move, the selection at amateur gives
    every legal move the score "evaluation of the position the move
    leads to, plus noise", the noise being that move's own draw of
    [Math.random] times 2, so at least 0 and below 2; the selection at
    pro is the same with the draw times 1/2, so at least 0 and below 1/2.
    Evaluation, product and sum are binary64 numbers, rounded as the
    code rounds them; the evaluation is the integer evaluation of the
    evaluator.  Both return the first best move by that score after one
    draw per legal move, each move having been played once on a copy:
    one ply.  The depth enters through the scale of the noise only. *)
Theorem amateur_and_pro_one_ply_binary64 {engine : ChessEngine}
    (game : Chess) (e : Binary64.Entropy) :
  moves game <> [] ->
  playsItsMoves game ->
  Binary64.standardBoards game ->
  (exists i found,
      Binary64.chooseMove game amateur (moves game) e =
      (Js.Returned (Some found), Binary64.advance (List.length (moves game)) e)
      /\ Binary64.firstBest game 2 e i found)
  /\ (exists i found,
         Binary64.chooseMove game pro (moves game) e =
         (Js.Returned (Some found), Binary64.advance (List.length (moves game)) e)
         /\ Binary64.firstBest game 0.5 e i found)
  /\ (forall i scale,
         Binary64.noisyScore game scale e i =
         (Binary64.toNumber (evaluationAfter game i)
          + Binary64.draw_value (Binary64.source e (Binary64.cursor e + i)) * scale)%float)
  /\ (forall mv c,
         In mv (moves game) ->
         resultingPosition game mv = Some c ->
         Binary64.evaluatePosition c = Binary64.toNumber (evaluatePosition c))
  /\ (forall i, (0 <=? Binary64.noiseAt 2 e i)%float = true
                /\ (Binary64.noiseAt 2 e i <? 2)%float = true)
  /\ (forall i, (0 <=? Binary64.noiseAt 0.5 e i)%float = true
                /\ (Binary64.noiseAt 0.5 e i <? 0.5)%float = true)
  /\ (forall d1 d2 e',
         Binary64.noiseScale d1 = Binary64.noiseScale d2 ->
         Binary64.findBestMove game d1 e' = Binary64.findBestMove game d2 e').
Proof.
  intros Hne Hplays Hstd. repeat split.
  - exact (Binary64Facts.findBestMove_firstBest64 game 2 e Hne Hplays Hstd).
  - exact (Binary64Facts.findBestMove_firstBest64 game 4 e Hne Hplays Hstd).
  - intros mv c Hin Hres. apply Binary64Facts.evaluatePosition_toNumber.
    exact (Hstd mv c Hin Hres).
  - exact (Binary64Facts.noiseAt_nonneg _ e i (Binary64Facts.noiseScale_shape 2)).
  - exact (Binary64Facts.noiseAt_below 2 e i).
  - exact (Binary64Facts.noiseAt_nonneg _ e i (Binary64Facts.noiseScale_shape 4)).
  - exact (Binary64Facts.noiseAt_below 4 e i).
  - intros d1 d2 e' Hscale. now apply Binary64Facts.findBestMove_depth64.
Qed.

Lemma amateur_and_pro_one_ply_binary64_pawnEnding :
  (exists i found,
      @Binary64.chooseMove Book.engine Book.pawnEndingFen amateur (moves Book.pawnEndingFen)
        (Binary64.mkEntropy Binary64.highThenLow 0) =
      (Js.Returned (Some found), Binary64.mkEntropy Binary64.highThenLow 2)
      /\ @Binary64.firstBest Book.engine Book.pawnEndingFen 2
           (Binary64.mkEntropy Binary64.highThenLow 0) i found)
  /\ (exists i found,
         @Binary64.chooseMove Book.engine Book.pawnEndingFen pro (moves Book.pawnEndingFen)
           (Binary64.mkEntropy Binary64.highThenLow 0) =
         (Js.Returned (Some found), Binary64.mkEntropy Binary64.highThenLow 2)
         /\ @Binary64.firstBest Book.engine Book.pawnEndingFen 0.5
              (Binary64.mkEntropy Binary64.highThenLow 0) i found).
Proof.
  pose proof (@amateur_and_pro_one_ply_binary64 Book.engine Book.pawnEndingFen
                (Binary64.mkEntropy Binary64.highThenLow 0)) as H.
  destruct H as (Ha & Hp & _).
  - discriminate.
  - exact book_plays_pawnEnding.
  - exact book_standard_pawnEnding.
  - split; [exact Ha | exact Hp].
Defined.

(** The sum is rounded before it is compared.  Black to move, draws 1/2
    and 2^-60 at amateur: taking the pawn scores 0 + 1 and stepping
    aside scores 1 + 2^-59, which is 1 as a binary64 number; the scores
    tie and the capture, listed first, is returned. *)
Example rounded_scores_tie :
  @moves Book.engine Book.pawnEndingFen = ["Kxh7"; "Kg7"]%string
  /\ @Binary64.noisyScore Book.engine Book.pawnEndingFen 2
       (Binary64.mkEntropy Binary64.halfThenTiny 0) 0 = 1%float
  /\ @Binary64.noiseAt 2 (Binary64.mkEntropy Binary64.halfThenTiny 0) 1 = 0x1p-59%float
  /\ @Binary64.noisyScore Book.engine Book.pawnEndingFen 2
       (Binary64.mkEntropy Binary64.halfThenTiny 0) 1 = 1%float
  /\ fst (@Binary64.chooseMove Book.engine Book.pawnEndingFen amateur
            (moves Book.pawnEndingFen) (Binary64.mkEntropy Binary64.halfThenTiny 0))
     = Js.Returned (Some "Kxh7"%string).
Proof. repeat split; reflexivity. Qed.

(** C6. On a position with a legal move the selection returns the first
    of the moves whose noisy score is the greatest: no move has a greater
    score than the returned one, and no move listed before it has an
    equal score.  In particular when all the scores are equal, as with
    every draw at zero and equal evaluations, the first listed move is
    returned; and with every draw at zero the first of the moves of
    greatest evaluation is returned.  The comparison with the running
    best is strict: an equal value does not replace it. *)
Theorem first_of_the_best_moves_is_returned {engine : ChessEngine}
    (game : Chess) (depth : Z) (e : Binary64.Entropy) :
  moves game <> [] ->
  playsItsMoves game ->
  Binary64.standardBoards game ->
  exists i found,
    Binary64.findBestMove game depth e =
    (Js.Returned (Some found), Binary64.advance (List.length (moves game)) e)
    /\ nth_error (moves game) i = Some found
    /\ (forall j, (j < List.length (moves game))%nat ->
          (Binary64.noisyScore game (Binary64.noiseScale depth) e j
           <=? Binary64.noisyScore game (Binary64.noiseScale depth) e i)%float = true)
    /\ (forall j, (j < List.length (moves game))%nat ->
          (Binary64.noisyScore game (Binary64.noiseScale depth) e j
           =? Binary64.noisyScore game (Binary64.noiseScale depth) e i)%float = true ->
          (i <= j)%nat)
    /\ ((forall j, (j < List.length (moves game))%nat ->
            (Binary64.noisyScore game (Binary64.noiseScale depth) e j
             =? Binary64.noisyScore game (Binary64.noiseScale depth) e 0)%float = true) ->
        nth_error (moves game) 0 = Some found)
    /\ ((forall j, (j < List.length (moves game))%nat ->
            evaluationAfter game j = evaluationAfter game 0
            /\ Binary64.draw_value (Binary64.source e (Binary64.cursor e + j)) = 0%float) ->
        nth_error (moves game) 0 = Some found)
    /\ ((forall j, (j < List.length (moves game))%nat ->
            Binary64.draw_value (Binary64.source e (Binary64.cursor e + j)) = 0%float) ->
        forall j, (j < List.length (moves game))%nat ->
          evaluationAfter game j <= evaluationAfter game i
          /\ (evaluationAfter game j = evaluationAfter game i -> (i <= j)%nat))
    /\ (forall value bestValue : float,
          Binary64.gt value bestValue = true -> (value =? bestValue)%float = false)
    /\ (forall value : float, Binary64.gt value value = false).
Proof.
  intros Hne Hplays Hstd.
  destruct (Binary64Facts.findBestMove_firstBest64 game depth e Hne Hplays Hstd)
    as (i & found & Hrun & Hnth & Hmax & Hfirst).
  assert (Hi : (i < List.length (moves game))%nat).
  { apply nth_error_Some. congruence. }
  assert (Hties : (forall j, (j < List.length (moves game))%nat ->
            (Binary64.noisyScore game (Binary64.noiseScale depth) e j
             =? Binary64.noisyScore game (Binary64.noiseScale depth) e 0)%float = true) ->
          nth_error (moves game) 0 = Some found).
  { intros Hall. destruct i as [|i]; [exact Hnth|exfalso].
    assert (H0 : (0 < S i)%nat) by lia.
    specialize (Hfirst 0%nat H0). apply Binary64Facts.ltb_not_eqb_sym in Hfirst.
    rewrite (Hall (S i) Hi) in Hfirst. discriminate. }
  exists i, found.
  split; [exact Hrun|]. split; [exact Hnth|]. split; [exact Hmax|].
  split; [|split; [exact Hties|split; [|split; [|split]]]].
  - intros j _ Heq. destruct (Nat.le_gt_cases i j) as [Hle|Hlt]; [exact Hle|exfalso].
    specialize (Hfirst j Hlt). apply Binary64Facts.ltb_not_eqb in Hfirst.
    rewrite Heq in Hfirst. discriminate.
  - intros Hsame. apply Hties. intros j Hj.
    destruct (Hsame j Hj) as [Hev Hdraw].
    assert (H0 : (0 < List.length (moves game))%nat) by lia.
    destruct (Hsame 0%nat H0) as [_ Hdraw0].
    unfold Binary64.noisyScore, Binary64.noiseAt. rewrite Hev, Hdraw, Hdraw0.
    apply Binary64Facts.eqb_refl.
    pose proof (Binary64Facts.noisyScore_notNaN game (Binary64.noiseScale depth) e 0 Hstd
                  (Binary64Facts.noiseScale_shape depth)) as Hnan.
    unfold Binary64.noisyScore, Binary64.noiseAt in Hnan. rewrite Hdraw0 in Hnan.
    exact Hnan.
  - intros Hzero j Hj.
    pose proof (Binary64Facts.noisyScore_zero_draw game depth e i Hstd (Hzero i Hi)) as Hsi.
    pose proof (Binary64Facts.noisyScore_zero_draw game depth e j Hstd (Hzero j Hj)) as Hsj.
    pose proof (Binary64Facts.evaluationAfter_bound game i Hstd) as Hbi.
    pose proof (Binary64Facts.evaluationAfter_bound game j Hstd) as Hbj.
    split.
    + specialize (Hmax j Hj). rewrite Hsi, Hsj in Hmax.
      apply Binary64Facts.toNumber_leb_inv in Hmax; lia.
    + intros Hsame. destruct (Nat.le_gt_cases i j) as [Hle|Hlt]; [exact Hle|exfalso].
      specialize (Hfirst j Hlt). rewrite Hsi, Hsj, Hsame in Hfirst.
      rewrite Binary64Facts.ltb_irrefl in Hfirst. discriminate.
  - intros value bestValue Hgt. unfold Binary64.gt in Hgt.
    now apply Binary64Facts.ltb_not_eqb_sym.
  - intros value. apply Binary64Facts.ltb_irrefl.
Qed.

Lemma first_of_the_best_moves_is_returned_start :
  exists i found,
    @Binary64.findBestMove Book.engine newChess 2 (Binary64.mkEntropy Binary64.zeros 0) =
    (Js.Returned (Some found),
     Binary64.advance (List.length (@moves Book.engine newChess))
       (Binary64.mkEntropy Binary64.zeros 0))
    /\ nth_error (@moves Book.engine newChess) i = Some found
    /\ (forall j, (j < List.length (@moves Book.engine newChess))%nat ->
          (@Binary64.noisyScore Book.engine newChess (Binary64.noiseScale 2)
             (Binary64.mkEntropy Binary64.zeros 0) j
           <=? @Binary64.noisyScore Book.engine newChess (Binary64.noiseScale 2)
                 (Binary64.mkEntropy Binary64.zeros 0) i)%float = true)
    /\ (forall j, (j < List.length (@moves Book.engine newChess))%nat ->
          (@Binary64.noisyScore Book.engine newChess (Binary64.noiseScale 2)
             (Binary64.mkEntropy Binary64.zeros 0) j
           =? @Binary64.noisyScore Book.engine newChess (Binary64.noiseScale 2)
                (Binary64.mkEntropy Binary64.zeros 0) i)%float = true ->
          (i <= j)%nat).
Proof.
  destruct (@first_of_the_best_moves_is_returned Book.engine Book.startFen 2
              (Binary64.mkEntropy Binary64.zeros 0))
    as (i & found & Hrun & Hnth & Hmax & Hties & _).
  - discriminate.
  - exact book_plays_start.
  - exact book_standard_start.
  - exists i, found. repeat split; assumption.
Defined.

(** With every draw at zero every first move of the starting position
    scores 0, and the selection returns the first one listed. *)
Example start_all_tie_first_wins :
  nth_error (@moves Book.engine newChess) 0 = Some "a3"%string
  /\ fst (@Binary64.findBestMove Book.engine newChess 2 (Binary64.mkEntropy Binary64.zeros 0))
     = Js.Returned (Some "a3"%string)
  /\ fst (@Binary64.findBestMove Book.engine newChess 4 (Binary64.mkEntropy Binary64.zeros 0))
     = Js.Returned (Some "a3"%string).
Proof. repeat split; reflexivity. Qed.

(** C10. The selection maximizes the score as [evaluatePosition] gives
    it, White's material minus Black's, plus the noise, as binary64
    numbers: the returned move leads to a position whose material balance
    for White plus noise is at least that of every other legal move, at
    every depth (2 for amateur, 4 for pro, 3 for the hint).  The side to
    move is not read anywhere, and the score is not negated for Black. *)
Theorem selection_maximizes_rounded_score_for_White {engine : ChessEngine}
    (game : Chess) (depth : Z) (e : Binary64.Entropy) :
  moves game <> [] ->
  playsItsMoves game ->
  Binary64.standardBoards game ->
  exists i found c,
    Binary64.findBestMove game depth e =
    (Js.Returned (Some found), Binary64.advance (List.length (moves game)) e)
    /\ nth_error (moves game) i = Some found
    /\ resultingPosition game found = Some c
    /\ forall j mv' c',
         nth_error (moves game) j = Some mv' ->
         resultingPosition game mv' = Some c' ->
         (Binary64.toNumber (sumZ (map signedValue (occupiedSquares (board c'))))
          + Binary64.noiseAt (Binary64.noiseScale depth) e j
          <=? Binary64.toNumber (sumZ (map signedValue (occupiedSquares (board c))))
              + Binary64.noiseAt (Binary64.noiseScale depth) e i)%float = true.
Proof.
  intros Hne Hplays Hstd.
  destruct (Binary64Facts.findBestMove_firstBest64 game depth e Hne Hplays Hstd)
    as (i & found & Hrun & Hnth & Hmax & _).
  destruct (resultingPosition game found) as [c|] eqn:Hres.
  2:{ exfalso. apply (Hplays found); [eapply nth_error_In; exact Hnth | exact Hres]. }
  exists i, found, c. repeat split; auto.
  intros j mv' c' Hnth' Hres'.
  assert (Hj : (j < List.length (moves game))%nat).
  { apply nth_error_Some. congruence. }
  specialize (Hmax j Hj). unfold Binary64.noisyScore, evaluationAfter in Hmax.
  rewrite Hnth, Hres, Hnth', Hres' in Hmax.
  unfold evaluatePosition in Hmax. rewrite !evaluateBoard_sum in Hmax.
  exact Hmax.
Qed.

Lemma selection_maximizes_rounded_score_for_White_as_Black :
  exists i found c,
    @Binary64.findBestMove Book.engine Book.pawnEndingFen 4
      (Binary64.mkEntropy Binary64.zeros 0) =
    (Js.Returned (Some found),
     Binary64.advance (List.length (@moves Book.engine Book.pawnEndingFen))
       (Binary64.mkEntropy Binary64.zeros 0))
    /\ nth_error (@moves Book.engine Book.pawnEndingFen) i = Some found
    /\ @resultingPosition Book.engine Book.pawnEndingFen found = Some c
    /\ forall j mv' c',
         nth_error (@moves Book.engine Book.pawnEndingFen) j = Some mv' ->
         @resultingPosition Book.engine Book.pawnEndingFen mv' = Some c' ->
         (Binary64.toNumber (sumZ (map signedValue (occupiedSquares (@board Book.engine c'))))
          + Binary64.noiseAt (Binary64.noiseScale 4) (Binary64.mkEntropy Binary64.zeros 0) j
          <=? Binary64.toNumber (sumZ (map signedValue (occupiedSquares (@board Book.engine c))))
              + Binary64.noiseAt (Binary64.noiseScale 4)
                  (Binary64.mkEntropy Binary64.zeros 0) i)%float = true.
Proof.
  apply (@selection_maximizes_rounded_score_for_White Book.engine Book.pawnEndingFen 4
           (Binary64.mkEntropy Binary64.zeros 0)).
  - discriminate.
  - exact book_plays_pawnEnding.
  - exact book_standard_pawnEnding.
Defined.

(** Black to move may take the pawn on h7, which would level the
    material; with every draw at zero the selection passes the capture
    by and keeps White a pawn up, at amateur, at pro and for the hint. *)
Example black_keeps_White_a_pawn_up :
  @moves Book.engine Book.pawnEndingFen = ["Kxh7"; "Kg7"]%string
  /\ option_map evaluatePosition (@resultingPosition Book.engine Book.pawnEndingFen "Kxh7") = Some 0
  /\ option_map evaluatePosition (@resultingPosition Book.engine Book.pawnEndingFen "Kg7") = Some 1
  /\ (forall depth, In depth [2; 4; 3] ->
        fst (@Binary64.findBestMove Book.engine Book.pawnEndingFen depth
               (Binary64.mkEntropy Binary64.zeros 0))
        = Js.Returned (Some "Kg7"%string)).
Proof.
  repeat split; try reflexivity.
  intros depth [<-|[<-|[<-|[]]]]; reflexivity.
Qed.

(** At easy the product of the draw and the number of moves is rounded
    before it is floored: with the draw nearest to 0.95 and the 20 first
    moves the product is 19, and the last listed move is selected. *)
Example easy_floors_rounded_product :
  List.length (@moves Book.engine newChess) = 20%nat
  /\ (Binary64.draw_value Binary64.nearlyAll * Binary64.toNumber 20 = 19)%float
  /\ nth_error (@moves Book.engine newChess) 19 = Some "Nh3"%string
  /\ fst (@Binary64.chooseMove Book.engine newChess easy (moves newChess)
            (Binary64.mkEntropy (fun _ => Binary64.nearlyAll) 0))
     = Js.Returned (Some "Nh3"%string).
Proof. repeat split; reflexivity. Qed.

End Binary64Claims.

(** ** The claims about the controller *)

Section Controller.

Context {engine : ChessEngine}.

Lemma world_eta (w : World) : mkWorld (ui w) (timers w) (entropy w) = w.
Proof. now destruct w. Qed.

Lemma onDrop_run (s : State) (sourceSquare targetSquare : string) (e : Js.Entropy) :
  onDrop s sourceSquare targetSquare e =
  match proposedMove (game s) sourceSquare targetSquare with
  | Some c =>
      (Js.Returned (true, [setGame c; setTimeout (MakeComputerMove (game s) (difficulty s))]), e)
  | None => (Js.Returned (false, []), e)
  end.
Proof.
  unfold onDrop, proposedMove, Js.try_catch, Js.bind, new_Chess, call_move.
  destruct (loadFen (fen (game s))) as [gameCopy|]; [|reflexivity].
  unfold Js.ret. destruct (move gameCopy _); reflexivity.
Qed.

Lemma makeComputerMove_guard (g : Chess) (d : Difficulty) (e : Js.Entropy) :
  terminal g -> makeComputerMove g d e = (Js.Returned [], e).
Proof.
  intros Hterm. unfold makeComputerMove.
  assert (Hguard : isGameOver g || (List.length (moves g) =? 0)%nat = true).
  { destruct Hterm as [Hover|Hnil].
    - rewrite Hover. reflexivity.
    - rewrite Hnil. apply orb_true_r. }
  rewrite Hguard. reflexivity.
Qed.

Lemma makeComputerMove_commits (g : Chess) (d : Difficulty) (e : Js.Entropy) :
  isGameOver g = false ->
  moves g <> [] ->
  playsItsMoves g ->
  exists found c e',
    chooseMove g d (moves g) e = (Js.Returned (Some found), e')
    /\ In found (moves g)
    /\ resultingPosition g found = Some c
    /\ makeComputerMove g d e = (Js.Returned [setGame c], e').
Proof.
  intros Hover Hne Hplays.
  destruct (chooseMove_returns_listed g d e Hne Hplays) as (found & e' & Hrun & Hin).
  destruct (resultingPosition g found) as [c|] eqn:Hres.
  2:{ exfalso. exact (Hplays found Hin Hres). }
  exists found, c, e'. repeat split; auto.
  unfold makeComputerMove. rewrite Hover.
  assert (Hlen : (List.length (moves g) =? 0)%nat = false).
  { destruct (moves g); [congruence | reflexivity]. }
  rewrite Hlen. cbn [orb]. unfold Js.bind at 1. rewrite Hrun.
  unfold resultingPosition in Hres. unfold Js.bind, new_Chess, call_move.
  destruct (loadFen (fen g)) as [gameCopy|]; [|discriminate].
  unfold Js.ret. cbn [moveArg].
  destruct (move gameCopy (San found)); inversion Hres; reflexivity.
Qed.

Lemma step_Drop (w : World) (sourceSquare targetSquare : string) :
  step w (Drop sourceSquare targetSquare) =
  match proposedMove (game (ui w)) sourceSquare targetSquare with
  | Some c =>
      mkWorld (mkState c (difficulty (ui w)) (showHint (ui w)) (hintMove (ui w)))
              (timers w ++ [MakeComputerMove (game (ui w)) (difficulty (ui w))])
              (entropy w)
  | None => w
  end.
Proof.
  unfold step, runHandler, Js.bind. rewrite onDrop_run.
  destruct (proposedMove (game (ui w)) sourceSquare targetSquare); cbn.
  - reflexivity.
  - apply world_eta.
Qed.

Lemma nth_error_last (A : Type) (l : list A) (x : A) :
  nth_error (l ++ [x]) (List.length l) = Some x.
Proof. rewrite nth_error_app2, Nat.sub_diag by lia. reflexivity. Qed.

End Controller.

(** C8. For every position with at least one legal move and for every
    difficulty, the selection returns a move, and that move is one of the
    legal moves of the position; the opponent step then plays it on its
    copy without an exception and commits the position it leads to. *)
Theorem chooseMove_in_legal_moves {engine : ChessEngine}
    (game : Chess) (d : Difficulty) (e : Js.Entropy) :
  moves game <> [] ->
  playsItsMoves game ->
  exists found e',
    chooseMove game d (moves game) e = (Js.Returned (Some found), e')
    /\ In found (moves game)
    /\ (isGameOver game = false ->
        exists c,
          resultingPosition game found = Some c
          /\ makeComputerMove game d e = (Js.Returned [setGame c], e')).
Proof.
  intros Hne Hplays. destruct (isGameOver game) eqn:Hover.
  - destruct (chooseMove_returns_listed game d e Hne Hplays) as (found & e' & Hrun & Hin).
    exists found, e'. repeat split; auto. discriminate.
  - destruct (makeComputerMove_commits game d e Hover Hne Hplays)
      as (found & c & e' & Hrun & Hin & Hres & Hcommit).
    exists found, e'. repeat split; auto.
    intros _. exists c. split; assumption.
Qed.

Lemma chooseMove_in_legal_moves_start :
  exists found e',
    @chooseMove Book.engine newChess easy (moves newChess)
      (Js.mkEntropy Book.halfThenZeros 0) = (Js.Returned (Some found), e')
    /\ In found (@moves Book.engine newChess)
    /\ (@isGameOver Book.engine newChess = false ->
        exists c,
          @resultingPosition Book.engine newChess found = Some c
          /\ @makeComputerMove Book.engine newChess easy (Js.mkEntropy Book.halfThenZeros 0)
             = (Js.Returned [setGame c], e')).
Proof.
  apply (@chooseMove_in_legal_moves Book.engine Book.startFen easy
           (Js.mkEntropy Book.halfThenZeros 0)).
  - discriminate.
  - exact book_plays_start.
Defined.

(** C7. A move proposed by the player that the engine does not accept
    on the current position (whatever the two squares are) makes
    [onDrop] return [false]; the state, and so the position and its
    notation string, stay as they were, nothing is scheduled and no
    exception leaves [onDrop].  A move the engine accepts makes it return
    [true] and commits the position the move leads to. *)
Theorem onDrop_rejects_or_commits {engine : ChessEngine}
    (w : World) (sourceSquare targetSquare : string) :
  match proposedMove (game (ui w)) sourceSquare targetSquare with
  | None =>
      fst (onDrop (ui w) sourceSquare targetSquare (entropy w)) = Js.Returned (false, [])
      /\ step w (Drop sourceSquare targetSquare) = w
      /\ fen (game (ui (step w (Drop sourceSquare targetSquare)))) = fen (game (ui w))
  | Some c =>
      (exists effects,
          fst (onDrop (ui w) sourceSquare targetSquare (entropy w))
          = Js.Returned (true, effects))
      /\ game (ui (step w (Drop sourceSquare targetSquare))) = c
  end.
Proof.
  pose proof (onDrop_run (ui w) sourceSquare targetSquare (entropy w)) as Hrun.
  destruct (proposedMove (game (ui w)) sourceSquare targetSquare) as [c|].
  - split.
    + eexists. rewrite Hrun. reflexivity.
    + unfold step, runHandler, Js.bind. rewrite Hrun. reflexivity.
  - assert (Hstep : step w (Drop sourceSquare targetSquare) = w).
    { unfold step, runHandler, Js.bind. rewrite Hrun. cbn. apply world_eta. }
    repeat split.
    + rewrite Hrun. reflexivity.
    + exact Hstep.
    + rewrite Hstep. reflexivity.
Qed.

(** From the starting position the pawn cannot go from e2 to e5: the
    drop is rejected and the position is the starting position still;
    from e2 to e4 it is accepted. *)
Example drop_e2_e5_rejected :
  fst (@onDrop Book.engine (initialState easy) "e2" "e5" (Js.mkEntropy Book.zeros 0))
  = Js.Returned (false, [])
  /\ fen (game (ui (step (@initialWorld Book.engine Book.zeros) (Drop "e2" "e5"))))
     = Book.startFen
  /\ fen (game (ui (step (@initialWorld Book.engine Book.zeros) (Drop "e2" "e4"))))
     = "rnbqkbnr/pppppppp/8/8/4P3/8/PPPP1PPP/RNBQKBNR b KQkq - 0 1"%string.
Proof. repeat split; reflexivity. Qed.



(** C3, as the code has it.  [getHint] always runs the selection of the
    pro difficulty, noise below 1/2, whatever the difficulty of the
    component; it stores what the selection returns as the hint and shows
    it, and it leaves the position and the difficulty as they were. *)
Theorem getHint_selects_as_pro {engine : ChessEngine} (w : World) :
  findBestMove (game (ui w)) 3 (entropy w)
  = chooseMove (game (ui w)) pro (moves (game (ui w))) (entropy w)
  /\ game (ui (step w ClickHint)) = game (ui w)
  /\ difficulty (ui (step w ClickHint)) = difficulty (ui w)
  /\ match fst (chooseMove (game (ui w)) pro (moves (game (ui w))) (entropy w)) with
     | Js.Returned hint =>
         hintMove (ui (step w ClickHint)) = hint
         /\ showHint (ui (step w ClickHint)) = true
     | Js.Thrown => ui (step w ClickHint) = ui w
     end.
Proof.
  assert (Hdepth : findBestMove (game (ui w)) 3 (entropy w)
                   = findBestMove (game (ui w)) 4 (entropy w))
    by (apply findBestMove_depth; reflexivity).
  cbn [chooseMove]. split; [exact Hdepth|].
  unfold step, runHandler, getHint, Js.bind. rewrite Hdepth.
  destruct (findBestMove (game (ui w)) 4 (entropy w)) as [[hint|] e']; cbn; auto.
Qed.

(** C3 as stated fails.  At easy, on the starting position, with a
    first draw of 1/2 and then draws of 0, the opponent's selection is
    the move of index 10, f3, and the hint is a3.  At amateur, on the pawn
    ending, with a first draw of 9/10 and then draws of 1/10, the
    opponent's selection takes the pawn (0 + 1.8 against 1 + 0.2) and the
    hint does not (0 + 0.45 against 1 + 0.05). *)
Lemma hint_differs_from_opponent_selection :
  fst (@chooseMove Book.engine newChess easy (moves newChess)
         (Js.mkEntropy Book.halfThenZeros 0)) = Js.Returned (Some "f3"%string)
  /\ hintMove (ui (step (@initialWorld Book.engine Book.halfThenZeros) ClickHint))
     = Some "a3"%string
  /\ fst (@chooseMove Book.engine Book.pawnEndingFen amateur (moves Book.pawnEndingFen)
            (entropy (Book.pawnEnding amateur))) = Js.Returned (Some "Kxh7"%string)
  /\ hintMove (ui (step (Book.pawnEnding amateur) ClickHint)) = Some "Kg7"%string.
Proof. repeat split; reflexivity. Qed.

(** The guard of line 16.  When the position the opponent step reads
    is over or has no legal move, the step commits nothing: the state,
    and with it the position, is as before, and no draw is consumed. *)
Lemma opponent_step_stops_on_terminal {engine : ChessEngine}
    (w : World) (i : nat) (g : Chess) (d : Difficulty) :
  nth_error (timers w) i = Some (MakeComputerMove g d) ->
  terminal g ->
  ui (step w (TimerFires i)) = ui w
  /\ entropy (step w (TimerFires i)) = entropy w.
Proof.
  intros Hnth Hterm. unfold step. rewrite Hnth.
  unfold runHandler, runCallback.
  rewrite (makeComputerMove_guard g d _ Hterm). split; reflexivity.
Qed.

Lemma opponent_step_stops_on_checkmate :
  ui (step Book.checkmated (TimerFires 0)) = ui Book.checkmated
  /\ entropy (step Book.checkmated (TimerFires 0)) = entropy Book.checkmated.
Proof.
  apply (@opponent_step_stops_on_terminal Book.engine Book.checkmated 0
           Book.foolsMateFen easy).
  - reflexivity.
  - left. reflexivity.
Defined.

(** C1.  The opponent step must not commit a move when the current
    position is terminal, and must leave the position as it is then.
    The code breaks this.  When the move of the player is accepted and
    leaves a terminal position, the step scheduled by the drop still
    commits a move: it is the closure of the render in which the piece
    was dropped, so its guard (line 16) reads the position before the
    player's move, which is not terminal; the step plays a legal move of
    that position on a copy of it and replaces the finished game by the
    result. *)
Theorem opponent_step_commits_after_game_over {engine : ChessEngine}
    (w : World) (sourceSquare targetSquare : string) (c : Chess) :
  isGameOver (game (ui w)) = false ->
  moves (game (ui w)) <> [] ->
  playsItsMoves (game (ui w)) ->
  proposedMove (game (ui w)) sourceSquare targetSquare = Some c ->
  terminal c ->
  terminal (game (ui (step w (Drop sourceSquare targetSquare))))
  /\ game (ui (step w (Drop sourceSquare targetSquare))) = c
  /\ nth_error (timers (step w (Drop sourceSquare targetSquare))) (List.length (timers w))
     = Some (MakeComputerMove (game (ui w)) (difficulty (ui w)))
  /\ exists found c' e',
       In found (moves (game (ui w)))
       /\ resultingPosition (game (ui w)) found = Some c'
       /\ makeComputerMove (game (ui w)) (difficulty (ui w)) (entropy w)
          = (Js.Returned [setGame c'], e')
       /\ game (ui (run w [Drop sourceSquare targetSquare;
                           TimerFires (List.length (timers w))])) = c'.
Proof.
  intros Hover Hne Hplays Hdrop Hterm.
  rewrite step_Drop, Hdrop. cbn [ui game timers].
  split; [exact Hterm|]. split; [reflexivity|]. split; [apply nth_error_last|].
  destruct (makeComputerMove_commits (game (ui w)) (difficulty (ui w)) (entropy w)
              Hover Hne Hplays) as (found & c' & e' & _ & Hin & Hres & Hcommit).
  exists found, c', e'. repeat split; auto.
  cbn [run fold_left]. rewrite step_Drop, Hdrop.
  unfold step. cbn [timers]. rewrite nth_error_last.
  unfold runHandler, runCallback. cbn [removeTimer entropy ui timers].
  rewrite Hcommit. reflexivity.
Qed.

Lemma opponent_step_commits_after_game_over_pawnEnding :
  @terminal Book.engine (game (ui (step (Book.pawnEnding easy) (Drop "h8" "h7"))))
  /\ game (ui (step (Book.pawnEnding easy) (Drop "h8" "h7"))) = Book.bareKingsFen
  /\ nth_error (timers (step (Book.pawnEnding easy) (Drop "h8" "h7"))) 0
     = Some (MakeComputerMove Book.pawnEndingFen easy)
  /\ exists found c' e',
       In found (@moves Book.engine Book.pawnEndingFen)
       /\ @resultingPosition Book.engine Book.pawnEndingFen found = Some c'
       /\ @makeComputerMove Book.engine Book.pawnEndingFen easy
            (entropy (Book.pawnEnding easy))
          = (Js.Returned [setGame c'], e')
       /\ game (ui (run (Book.pawnEnding easy) [Drop "h8" "h7"; TimerFires 0])) = c'.
Proof.
  apply (@opponent_step_commits_after_game_over Book.engine (Book.pawnEnding easy)
           "h8" "h7" Book.bareKingsFen).
  - reflexivity.
  - discriminate.
  - exact book_plays_pawnEnding.
  - reflexivity.
  - left. reflexivity.
Defined.

(** In the pawn ending the player, with Black, takes the pawn on h7:
    king against king, the game is over.  The guard of the scheduled
    step reads the position before the capture, so that with a first
    draw of 9/10 at easy the step plays the move of index 1, the king to
    g7, from that position and commits the result: the finished game is
    replaced by a position in which the pawn is back on h7. *)
Example stale_step_undoes_the_capture :
  @proposedMove Book.engine Book.pawnEndingFen "h8" "h7" = Some Book.bareKingsFen
  /\ game (ui (step (Book.pawnEnding easy) (Drop "h8" "h7"))) = Book.bareKingsFen
  /\ @isGameOver Book.engine Book.bareKingsFen = true
  /\ @isGameOver Book.engine Book.pawnEndingFen = false
  /\ timers (step (Book.pawnEnding easy) (Drop "h8" "h7"))
     = [MakeComputerMove Book.pawnEndingFen easy]
  /\ fen (game (ui (run (Book.pawnEnding easy) [Drop "h8" "h7"; TimerFires 0])))
     = "8/6kP/8/8/8/8/8/K7 w - - 1 2"%string
  /\ game (ui (run (Book.pawnEnding easy) [Drop "h8" "h7"; TimerFires 0]))
     <> game (ui (step (Book.pawnEnding easy) (Drop "h8" "h7"))).
Proof. repeat split; try reflexivity. discriminate. Qed.

(** The same without a finished game: the player drops a pawn and
    resets the game before the reply; the step scheduled by the drop is
    still pending, and when it fires it commits a move, a3, in the new
    game. *)
Example opponent_moves_in_a_reset_game :
  @reachable Book.engine Book.dropThenReset
  /\ ui Book.dropThenReset = initialState easy
  /\ timers Book.dropThenReset = [MakeComputerMove Book.startFen easy]
  /\ fen (game (ui (step Book.dropThenReset (TimerFires 0))))
     = "rnbqkbnr/pppppppp/8/8/8/P7/1PPPPPPP/RNBQKBNR b KQkq - 0 1"%string.
Proof.
  split.
  - exists Book.zeros, [Drop "e2" "e4"; ClickReset]. reflexivity.
  - repeat split; reflexivity.
Qed.

(** The step handed to [setTimeout] is the closure of the render in
    which the piece was dropped: it reads the position before the
    player's move.  After e2-e4 the step moves from the starting position
    and commits a3; the pawn is back on e2. *)
Example opponent_step_reads_position_before_drop :
  timers (step (@initialWorld Book.engine Book.zeros) (Drop "e2" "e4"))
  = [MakeComputerMove Book.startFen easy]
  /\ fen (game (ui (run (@initialWorld Book.engine Book.zeros) [Drop "e2" "e4"])))
     = "rnbqkbnr/pppppppp/8/8/4P3/8/PPPP1PPP/RNBQKBNR b KQkq - 0 1"%string
  /\ fen (game (ui (run (@initialWorld Book.engine Book.zeros)
                        [Drop "e2" "e4"; TimerFires 0])))
     = "rnbqkbnr/pppppppp/8/8/8/P7/1PPPPPPP/RNBQKBNR b KQkq - 0 1"%string.
Proof. repeat split; reflexivity. Qed.

(** ** Further properties of the evaluator *)

Section EvaluatorFurther.

Context {engine : ChessEngine}.

Lemma occupiedSquares_app (b1 b2 : Board) :
  occupiedSquares (b1 ++ b2) = occupiedSquares b1 ++ occupiedSquares b2.
Proof. unfold occupiedSquares. apply flat_map_app. Qed.

Lemma occupiedSquares_row (left right : list (option Piece)) (sq : option Piece) :
  occupiedSquares [left ++ sq :: right] =
  occupiedSquares [left]
  ++ match sq with Some pc => [pc] | None => [] end
  ++ occupiedSquares [right].
Proof.
  unfold occupiedSquares. simpl. rewrite !app_nil_r, flat_map_app. reflexivity.
Qed.

Lemma signedValue_flip (pc : Piece) : signedValue (flipPiece pc) = - signedValue pc.
Proof. destruct pc as [[] []]; reflexivity. Qed.

Lemma occupiedSquares_flip (b : Board) :
  occupiedSquares (flipBoard b) = map flipPiece (occupiedSquares b).
Proof.
  unfold occupiedSquares, flipBoard.
  induction b as [|row b IH]; simpl; [reflexivity|].
  rewrite map_app, IH. f_equal.
  induction row as [|sq row IHrow]; simpl; [reflexivity|].
  rewrite map_app, IHrow. now destruct sq.
Qed.

Lemma sumZ_opp (l : list Z) : sumZ (map Z.opp l) = - sumZ l.
Proof. induction l as [|x l IH]; simpl; [reflexivity | rewrite IH; lia]. Qed.

End EvaluatorFurther.

(** X1. Exchanging the colours of all the pieces of a board negates its
    evaluation: the evaluator is antisymmetric in the two sides. *)
Theorem evaluateBoard_flipBoard (b : Board) :
  evaluateBoard (flipBoard b) = - evaluateBoard b.
Proof.
  rewrite !evaluateBoard_sum, occupiedSquares_flip, map_map.
  rewrite <- sumZ_opp, map_map. f_equal.
  apply map_ext. intros pc. apply signedValue_flip.
Qed.

(** X2. The evaluation depends on which pieces are on the board and not
    on where they stand: two boards with the same pieces, in any
    arrangement, have the same evaluation. *)
Theorem evaluateBoard_same_pieces (b1 b2 : Board) :
  Permutation (occupiedSquares b1) (occupiedSquares b2) ->
  evaluateBoard b1 = evaluateBoard b2.
Proof.
  intros Hperm. rewrite !evaluateBoard_sum.
  induction Hperm as [|pc l1 l2 _ IH|pc1 pc2 l|l1 l2 l3 _ IH1 _ IH2]; simpl.
  - reflexivity.
  - now rewrite IH.
  - lia.
  - now rewrite IH1.
Qed.

Lemma evaluateBoard_same_pieces_moved :
  evaluateBoard [[Some (mkPiece White Queen); None]; [None; Some (mkPiece Black Rook)]]
  = evaluateBoard [[Some (mkPiece Black Rook); None]; [Some (mkPiece White Queen); None]].
Proof.
  apply evaluateBoard_same_pieces. simpl. apply perm_swap.
Defined.

(** X3. The evaluation is at most 9 per piece on the board, in absolute
    value. *)
Theorem evaluateBoard_bound (b : Board) :
  Z.abs (evaluateBoard b) <= 9 * Z.of_nat (List.length (occupiedSquares b)).
Proof.
  rewrite evaluateBoard_sum.
  induction (occupiedSquares b) as [|pc l IH]; simpl List.length; simpl sumZ.
  - simpl. lia.
  - pose proof (signedValue_bound pc). lia.
Qed.

(** X4. Taking a piece off a square changes the evaluation by exactly
    the signed value of that piece, whatever else is on the board: a
    capture of a White piece lowers it by the piece's value, a capture of
    a Black piece raises it. *)
Theorem evaluateBoard_remove_piece
    (above below : Board) (left right : list (option Piece)) (pc : Piece) :
  evaluateBoard (above ++ (left ++ None :: right) :: below)
  = evaluateBoard (above ++ (left ++ Some pc :: right) :: below) - signedValue pc.
Proof.
  rewrite !evaluateBoard_sum.
  change ((left ++ None :: right) :: below) with ([left ++ None :: right] ++ below).
  change ((left ++ Some pc :: right) :: below) with ([left ++ Some pc :: right] ++ below).
  rewrite !occupiedSquares_app, !occupiedSquares_row, !map_app, !sumZ_app.
  simpl. lia.
Qed.

(** ** Further properties of the selection *)

Section SelectionFurther.

Context {engine : ChessEngine}.

Lemma noiseScale_other (depth : Z) : depth <> 2 -> noiseScale depth = 1 # 2.
Proof.
  intros Hd. unfold noiseScale. destruct (depth =? 2) eqn:E; [|reflexivity].
  apply Z.eqb_eq in E. contradiction.
Qed.

(** Two integer evaluations whose noisy scores are in order differ by
    less than the scale of the noise. *)
Lemma evaluations_within_noise (a b k : Z) (na nb : Q) :
  (0 <= na)%Q -> (nb < inject_Z k)%Q ->
  (inject_Z a + na <= inject_Z b + nb)%Q ->
  a < b + k.
Proof.
  intros Hna Hnb Hscore. rewrite Zlt_Qlt, inject_Z_plus. lra.
Qed.

Lemma evaluations_within_half (a b : Z) (na nb : Q) :
  (0 <= na)%Q -> (nb < 1 # 2)%Q ->
  (inject_Z a + na <= inject_Z b + nb)%Q ->
  a <= b.
Proof.
  intros Hna Hnb Hscore.
  assert (H : a < b + 1).
  { apply (evaluations_within_noise a b 1 na nb); auto.
    eapply Qlt_trans; [exact Hnb | reflexivity]. }
  lia.
Qed.

Lemma findBestMove_returns (game : Chess) (depth : Z) (e : Js.Entropy) :
  playsItsMoves game ->
  exists result,
    findBestMove game depth e
    = (Js.Returned result, Js.advance (List.length (moves game)) e)
    /\ (moves game = [] -> result = None)
    /\ (moves game <> [] -> exists found, result = Some found /\ In found (moves game)).
Proof.
  intros Hplays. destruct (moves game) as [|m0 ms] eqn:Hms.
  - exists None. rewrite (findBestMove_no_moves game depth e Hms).
    cbn [List.length]. rewrite advance_0. repeat split; congruence.
  - assert (Hne : moves game <> []) by congruence.
    destruct (findBestMove_firstBest game depth e Hne Hplays) as (i & found & Hrun & Hbest).
    apply firstBest_In in Hbest. rewrite Hms in Hrun, Hbest.
    exists (Some found). repeat split; [exact Hrun | congruence |].
    intros _. exists found. split; [reflexivity | exact Hbest].
Qed.

End SelectionFurther.

(** X5. At pro and for the hint (any depth other than 2) the noise is
    below 1/2 and the evaluations are integers, so the noise never
    overturns a difference of evaluation: the move returned leads to a
    position whose evaluation is the greatest among all the legal
    moves.  The noise only chooses between moves of greatest
    evaluation. *)
Theorem findBestMove_greatest_evaluation {engine : ChessEngine}
    (game : Chess) (depth : Z) (e : Js.Entropy) :
  depth <> 2 ->
  moves game <> [] ->
  playsItsMoves game ->
  exists i found,
    findBestMove game depth e
    = (Js.Returned (Some found), Js.advance (List.length (moves game)) e)
    /\ nth_error (moves game) i = Some found
    /\ forall j, (j < List.length (moves game))%nat ->
         evaluationAfter game j <= evaluationAfter game i.
Proof.
  intros Hdepth Hne Hplays.
  destruct (findBestMove_firstBest game depth e Hne Hplays)
    as (i & found & Hrun & Hnth & Hmax & _).
  exists i, found. repeat split; auto.
  intros j Hj. specialize (Hmax j Hj). unfold noisyScore in Hmax.
  rewrite (noiseScale_other depth Hdepth) in Hmax.
  destruct (noise_bounds (1 # 2) e j) as [Hj0 _]; [reflexivity|].
  destruct (noise_bounds (1 # 2) e i) as [_ Hi1]; [reflexivity|].
  exact (evaluations_within_half _ _ _ _ Hj0 Hi1 Hmax).
Qed.

Lemma findBestMove_greatest_evaluation_pawnEnding :
  exists i found,
    @findBestMove Book.engine Book.pawnEndingFen 3 (Js.mkEntropy Book.highThenLow 0)
    = (Js.Returned (Some found),
       Js.advance (List.length (@moves Book.engine Book.pawnEndingFen))
         (Js.mkEntropy Book.highThenLow 0))
    /\ nth_error (@moves Book.engine Book.pawnEndingFen) i = Some found
    /\ forall j, (j < List.length (@moves Book.engine Book.pawnEndingFen))%nat ->
         @evaluationAfter Book.engine Book.pawnEndingFen j
         <= @evaluationAfter Book.engine Book.pawnEndingFen i.
Proof.
  apply (@findBestMove_greatest_evaluation Book.engine Book.pawnEndingFen 3
           (Js.mkEntropy Book.highThenLow 0)).
  - discriminate.
  - discriminate.
  - exact book_plays_pawnEnding.
Defined.

(** X6. At amateur (depth 2) the noise is at most 2, so the move
    returned leads to a position whose evaluation is at most 2 below the
    greatest among the legal moves: the noise can overturn a difference
    of two pawns and no more. *)
Theorem findBestMove_amateur_within_two {engine : ChessEngine}
    (game : Chess) (e : Js.Entropy) :
  moves game <> [] ->
  playsItsMoves game ->
  exists i found,
    findBestMove game 2 e
    = (Js.Returned (Some found), Js.advance (List.length (moves game)) e)
    /\ nth_error (moves game) i = Some found
    /\ forall j, (j < List.length (moves game))%nat ->
         evaluationAfter game j <= evaluationAfter game i + 2.
Proof.
  intros Hne Hplays.
  destruct (findBestMove_firstBest game 2 e Hne Hplays)
    as (i & found & Hrun & Hnth & Hmax & _).
  exists i, found. repeat split; auto.
  intros j Hj. specialize (Hmax j Hj). unfold noisyScore in Hmax.
  change (noiseScale 2) with (inject_Z 2) in Hmax.
  destruct (noise_bounds (inject_Z 2) e j) as [Hj0 _]; [reflexivity|].
  destruct (noise_bounds (inject_Z 2) e i) as [_ Hi1]; [reflexivity|].
  pose proof (evaluations_within_noise _ _ 2 _ _ Hj0 Hi1 Hmax). lia.
Qed.

Lemma findBestMove_amateur_within_two_pawnEnding :
  exists i found,
    @findBestMove Book.engine Book.pawnEndingFen 2 (Js.mkEntropy Book.highThenLow 0)
    = (Js.Returned (Some found),
       Js.advance (List.length (@moves Book.engine Book.pawnEndingFen))
         (Js.mkEntropy Book.highThenLow 0))
    /\ nth_error (@moves Book.engine Book.pawnEndingFen) i = Some found
    /\ forall j, (j < List.length (@moves Book.engine Book.pawnEndingFen))%nat ->
         @evaluationAfter Book.engine Book.pawnEndingFen j
         <= @evaluationAfter Book.engine Book.pawnEndingFen i + 2.
Proof.
  apply (@findBestMove_amateur_within_two Book.engine Book.pawnEndingFen
           (Js.mkEntropy Book.highThenLow 0)).
  - discriminate.
  - exact book_plays_pawnEnding.
Defined.

(** X7. At easy a greater draw never selects an earlier move: the
    index of the move selected grows with the draw, and a draw of 0
    selects the first legal move.  One draw is consumed and no position
    is evaluated. *)
Theorem chooseMove_easy_monotone {engine : ChessEngine}
    (game : Chess) (e1 e2 : Js.Entropy) :
  moves game <> [] ->
  (Js.draw_value (Js.source e1 (Js.cursor e1))
   <= Js.draw_value (Js.source e2 (Js.cursor e2)))%Q ->
  exists i1 i2 mv1 mv2,
    chooseMove game easy (moves game) e1 = (Js.Returned (Some mv1), Js.advance 1 e1)
    /\ chooseMove game easy (moves game) e2 = (Js.Returned (Some mv2), Js.advance 1 e2)
    /\ nth_error (moves game) i1 = Some mv1
    /\ nth_error (moves game) i2 = Some mv2
    /\ (i1 <= i2)%nat
    /\ ((Js.draw_value (Js.source e1 (Js.cursor e1)) == 0)%Q -> i1 = 0%nat).
Proof.
  intros Hne Hle.
  assert (Hlen : (0 < List.length (moves game))%nat).
  { destruct (moves game); [congruence | simpl; lia]. }
  set (n := inject_Z (Z.of_nat (List.length (moves game)))).
  set (r1 := Js.draw_value (Js.source e1 (Js.cursor e1))) in *.
  set (r2 := Js.draw_value (Js.source e2 (Js.cursor e2))) in *.
  assert (Hn : (0 <= n)%Q).
  { unfold n. change 0%Q with (inject_Z 0). rewrite <- Zle_Qle. lia. }
  pose proof (random_index_in_range (Js.source e1 (Js.cursor e1)) _ Hlen) as H1.
  pose proof (random_index_in_range (Js.source e2 (Js.cursor e2)) _ Hlen) as H2.
  fold r1 n in H1. fold r2 n in H2.
  destruct (nth_error (moves game) (Js.Math_floor (r1 * n))) as [mv1|] eqn:Hmv1.
  2:{ apply nth_error_None in Hmv1. lia. }
  destruct (nth_error (moves game) (Js.Math_floor (r2 * n))) as [mv2|] eqn:Hmv2.
  2:{ apply nth_error_None in Hmv2. lia. }
  exists (Js.Math_floor (r1 * n)), (Js.Math_floor (r2 * n)), mv1, mv2.
  repeat split.
  - unfold chooseMove, Js.bind, Js.Math_random, Js.ret. fold r1 n. now rewrite Hmv1.
  - unfold chooseMove, Js.bind, Js.Math_random, Js.ret. fold r2 n. now rewrite Hmv2.
  - exact Hmv1.
  - exact Hmv2.
  - unfold Js.Math_floor. apply Z2Nat.inj_le.
    + destruct (draw_bounds (Js.source e1 (Js.cursor e1))) as [H0 _]. fold r1 in H0.
      change 0 with (Qfloor 0). apply Qfloor_resp_le. now apply Qmult_le_0_compat.
    + destruct (draw_bounds (Js.source e2 (Js.cursor e2))) as [H0 _]. fold r2 in H0.
      change 0 with (Qfloor 0). apply Qfloor_resp_le. now apply Qmult_le_0_compat.
    + apply Qfloor_resp_le. now apply Qmult_le_compat_r.
  - intros Hzero. unfold Js.Math_floor.
    assert (Hx : (r1 * n == 0)%Q) by (rewrite Hzero; ring).
    rewrite Hx. reflexivity.
Qed.

Lemma chooseMove_easy_monotone_start :
  exists i1 i2 mv1 mv2,
    @chooseMove Book.engine newChess easy (moves newChess) (Js.mkEntropy Book.zeros 0)
    = (Js.Returned (Some mv1), Js.advance 1 (Js.mkEntropy Book.zeros 0))
    /\ @chooseMove Book.engine newChess easy (moves newChess)
         (Js.mkEntropy Book.halfThenZeros 0)
       = (Js.Returned (Some mv2), Js.advance 1 (Js.mkEntropy Book.halfThenZeros 0))
    /\ nth_error (@moves Book.engine newChess) i1 = Some mv1
    /\ nth_error (@moves Book.engine newChess) i2 = Some mv2
    /\ (i1 <= i2)%nat
    /\ ((0 == 0)%Q -> i1 = 0%nat).
Proof.
  apply (@chooseMove_easy_monotone Book.engine Book.startFen
           (Js.mkEntropy Book.zeros 0) (Js.mkEntropy Book.halfThenZeros 0)).
  - discriminate.
  - vm_compute. discriminate.
Defined.

(** ** Further properties of the controller *)

Section ControllerFurther.

Context {engine : ChessEngine}.

Lemma step_ClickHint (w : World) :
  step w ClickHint =
  match findBestMove (game (ui w)) 3 (entropy w) with
  | (Js.Returned hint, e') =>
      mkWorld (mkState (game (ui w)) (difficulty (ui w)) true hint)
              (timers w ++ [HideHint]) e'
  | (Js.Thrown, e') => mkWorld (ui w) (timers w) e'
  end.
Proof.
  unfold step, runHandler, getHint, Js.bind.
  destruct (findBestMove (game (ui w)) 3 (entropy w)) as [[hint|] e']; reflexivity.
Qed.

Lemma remove_at_length (A : Type) (l rest : list A) (x : A) :
  firstn (List.length l) (l ++ x :: rest) ++ skipn (S (List.length l)) (l ++ x :: rest)
  = l ++ rest.
Proof.
  induction l as [|y l IH]; [reflexivity|].
  change (y :: (firstn (List.length l) (l ++ x :: rest)
                ++ skipn (S (List.length l)) (l ++ x :: rest)) = y :: (l ++ rest)).
  now rewrite IH.
Qed.

Lemma Forall_remove (A : Type) (P : A -> Prop) (l : list A) (i : nat) :
  Forall P l -> Forall P (firstn i l ++ skipn (S i) l).
Proof.
  intros H. revert i. induction H as [|x l Hx Hl IH]; intros [|i]; simpl; auto.
Qed.

(** What the opponent step sets: nothing, or the one position it
    committed, which the engine produced from the position it read. *)
Lemma makeComputerMove_effects (g : Chess) (d : Difficulty) (e : Js.Entropy) :
  match fst (makeComputerMove g d e) with
  | Js.Returned effs =>
      effs = [] \/ exists c, effs = [setGame c] /\ (derivable g -> derivable c)
  | Js.Thrown => True
  end.
Proof.
  unfold makeComputerMove.
  destruct (isGameOver g || (List.length (moves g) =? 0)%nat); [left; reflexivity|].
  unfold Js.bind.
  destruct (chooseMove g d (moves g) e) as [[mv|] e1]; [|exact I].
  unfold new_Chess. destruct (loadFen (fen g)) as [gameCopy|] eqn:Hload; [|exact I].
  unfold Js.ret, call_move.
  destruct (move gameCopy (moveArg mv)) as [c| |] eqn:Hmove; cbn; auto.
  - right. exists c. split; [reflexivity|]. intros Hg.
    eapply derivable_move; [eapply derivable_copy; eassumption | exact Hmove].
  - right. exists gameCopy. split; [reflexivity|]. intros Hg.
    eapply derivable_copy; eassumption.
Qed.

Lemma step_TimerFires_computer (w : World) (i : nat) (g : Chess) (d : Difficulty) :
  nth_error (timers w) i = Some (MakeComputerMove g d) ->
  exists e',
    step w (TimerFires i)
    = mkWorld (ui w) (firstn i (timers w) ++ skipn (S i) (timers w)) e'
    \/ exists c,
         (derivable g -> derivable c)
         /\ step w (TimerFires i)
            = mkWorld (mkState c (difficulty (ui w)) (showHint (ui w)) (hintMove (ui w)))
                      (firstn i (timers w) ++ skipn (S i) (timers w)) e'.
Proof.
  intros Hnth. unfold step. rewrite Hnth. unfold runHandler, runCallback.
  pose proof (makeComputerMove_effects g d (entropy (removeTimer i w))) as Heff.
  destruct (makeComputerMove g d (entropy (removeTimer i w))) as [[effs|] e'];
    cbn [fst] in Heff; exists e'.
  - destruct Heff as [->|(c & -> & Hc)].
    + left. reflexivity.
    + right. exists c. split; [exact Hc | reflexivity].
  - left. reflexivity.
Qed.

Lemma step_TimerFires_HideHint (w : World) (i : nat) :
  nth_error (timers w) i = Some HideHint ->
  step w (TimerFires i)
  = mkWorld (mkState (game (ui w)) (difficulty (ui w)) false (hintMove (ui w)))
            (firstn i (timers w) ++ skipn (S i) (timers w)) (entropy w).
Proof. intros Hnth. unfold step. rewrite Hnth. reflexivity. Qed.

Lemma step_wellFormed (w : World) (ev : Event) :
  wellFormed w -> wellFormed (step w ev).
Proof.
  intros [Hgame Htimers]. destruct ev as [src tgt| | |d|i].
  - rewrite step_Drop. unfold proposedMove.
    destruct (loadFen (fen (game (ui w)))) as [gameCopy|] eqn:Hload; [|split; assumption].
    destruct (move gameCopy (FromTo src tgt "q")) as [c| |] eqn:Hmove; try (split; assumption).
    split; cbn.
    + eapply derivable_move; [eapply derivable_copy; eassumption | exact Hmove].
    + apply Forall_app. split; [exact Htimers|]. constructor; [exact Hgame | constructor].
  - rewrite step_ClickHint.
    destruct (findBestMove (game (ui w)) 3 (entropy w)) as [[hint|] e']; split; cbn; auto.
    apply Forall_app. split; [exact Htimers|]. constructor; [exact I | constructor].
  - split; [apply derivable_new | exact Htimers].
  - split; [apply derivable_new | exact Htimers].
  - destruct (nth_error (timers w) i) as [cb|] eqn:Hnth.
    2:{ unfold step. rewrite Hnth. split; assumption. }
    assert (Hcb : holdsDerivable cb).
    { apply nth_error_In in Hnth. rewrite Forall_forall in Htimers. now apply Htimers. }
    pose proof (Forall_remove _ _ _ i Htimers) as Hrest.
    destruct cb as [g d|].
    + destruct (step_TimerFires_computer w i g d Hnth) as [e' [Hstep|(c & Hc & Hstep)]];
        rewrite Hstep; split; cbn; auto.
    + rewrite (step_TimerFires_HideHint w i Hnth). split; cbn; auto.
Qed.

Lemma run_wellFormed (evs : list Event) (w : World) :
  wellFormed w -> wellFormed (run w evs).
Proof.
  revert w. induction evs as [|ev evs IH]; intros w Hw; [exact Hw|].
  apply IH. now apply step_wellFormed.
Qed.

End ControllerFurther.

(** X8. On a position with a legal move the hint is one of the legal
    moves of the current position: [getHint] stores it, shows it,
    schedules one call to hide it, consumes one draw per legal move and
    leaves the position and the difficulty as they were. *)
Theorem getHint_shows_legal_move {engine : ChessEngine} (w : World) :
  moves (game (ui w)) <> [] ->
  playsItsMoves (game (ui w)) ->
  exists found,
    In found (moves (game (ui w)))
    /\ step w ClickHint
       = mkWorld (mkState (game (ui w)) (difficulty (ui w)) true (Some found))
                 (timers w ++ [HideHint])
                 (Js.advance (List.length (moves (game (ui w)))) (entropy w)).
Proof.
  intros Hne Hplays.
  destruct (findBestMove_returns (game (ui w)) 3 (entropy w) Hplays)
    as (result & Hrun & _ & Hsome).
  destruct (Hsome Hne) as (found & -> & Hin).
  exists found. split; [exact Hin|].
  rewrite step_ClickHint, Hrun. reflexivity.
Qed.

Lemma getHint_shows_legal_move_start :
  exists found,
    In found (@moves Book.engine newChess)
    /\ step (@initialWorld Book.engine Book.halfThenZeros) ClickHint
       = mkWorld (mkState newChess easy true (Some found)) [HideHint]
                 (Js.mkEntropy Book.halfThenZeros 20).
Proof.
  apply (@getHint_shows_legal_move Book.engine (initialWorld Book.halfThenZeros)).
  - discriminate.
  - exact book_plays_start.
Defined.

(** X9. On a position with no legal move, a finished game included,
    [getHint] does not fail: it shows a hint whose text is [undefined],
    schedules the call that hides it, and consumes no draw. *)
Theorem getHint_without_moves {engine : ChessEngine} (w : World) :
  moves (game (ui w)) = [] ->
  step w ClickHint
  = mkWorld (mkState (game (ui w)) (difficulty (ui w)) true None)
            (timers w ++ [HideHint]) (entropy w).
Proof.
  intros Hnil.
  rewrite step_ClickHint, (findBestMove_no_moves (game (ui w)) 3 (entropy w) Hnil).
  reflexivity.
Qed.

Lemma getHint_without_moves_checkmate :
  step Book.checkmated ClickHint
  = mkWorld (mkState Book.foolsMateFen easy true None)
            [MakeComputerMove Book.foolsMateFen easy; HideHint] (Js.mkEntropy Book.zeros 0).
Proof.
  apply (@getHint_without_moves Book.engine Book.checkmated). reflexivity.
Defined.

(** X10. [onDrop] touches the position and the timers only.  Accepted
    or not, the move leaves the difficulty, the hint text and whether the
    hint is shown as they were (a hint on display stays on display), and
    consumes no draw; an accepted move schedules exactly one opponent
    step, which holds the position and the difficulty from before the
    move, and a rejected move schedules nothing. *)
Theorem onDrop_keeps_hint_and_difficulty {engine : ChessEngine}
    (w : World) (sourceSquare targetSquare : string) :
  difficulty (ui (step w (Drop sourceSquare targetSquare))) = difficulty (ui w)
  /\ showHint (ui (step w (Drop sourceSquare targetSquare))) = showHint (ui w)
  /\ hintMove (ui (step w (Drop sourceSquare targetSquare))) = hintMove (ui w)
  /\ entropy (step w (Drop sourceSquare targetSquare)) = entropy w
  /\ timers (step w (Drop sourceSquare targetSquare))
     = match proposedMove (game (ui w)) sourceSquare targetSquare with
       | Some _ => timers w ++ [MakeComputerMove (game (ui w)) (difficulty (ui w))]
       | None => timers w
       end.
Proof.
  rewrite step_Drop.
  destruct (proposedMove (game (ui w)) sourceSquare targetSquare); repeat split.
Qed.

(** X11. The opponent's reply is made from the position before the
    player's move.  On a position that is not over, has legal moves and
    whose listed moves the engine plays, there is one legal move of that
    position, and the position it leads to, such that whichever move of
    the player is accepted, the step it schedules commits that position
    when it fires: the reply is one legal move away from the position the
    player moved from, and it does not depend on the player's move. *)
Theorem reply_is_made_from_position_before_drop {engine : ChessEngine} (w : World) :
  isGameOver (game (ui w)) = false ->
  moves (game (ui w)) <> [] ->
  playsItsMoves (game (ui w)) ->
  exists found c',
    In found (moves (game (ui w)))
    /\ resultingPosition (game (ui w)) found = Some c'
    /\ forall sourceSquare targetSquare c,
         proposedMove (game (ui w)) sourceSquare targetSquare = Some c ->
         game (ui (step w (Drop sourceSquare targetSquare))) = c
         /\ game (ui (run w [Drop sourceSquare targetSquare;
                             TimerFires (List.length (timers w))])) = c'.
Proof.
  intros Hover Hne Hplays.
  destruct (makeComputerMove_commits (game (ui w)) (difficulty (ui w)) (entropy w)
              Hover Hne Hplays) as (found & c' & e' & _ & Hin & Hres & Hcommit).
  exists found, c'. repeat split; auto.
  - rewrite step_Drop, H. reflexivity.
  - cbn [run fold_left]. rewrite step_Drop, H.
    unfold step. cbn [timers]. rewrite nth_error_last.
    unfold runHandler, runCallback. cbn [removeTimer entropy ui timers].
    rewrite Hcommit. reflexivity.
Qed.

Lemma reply_is_made_from_position_before_drop_start :
  exists found c',
    In found (@moves Book.engine newChess)
    /\ @resultingPosition Book.engine newChess found = Some c'
    /\ forall sourceSquare targetSquare c,
         @proposedMove Book.engine newChess sourceSquare targetSquare = Some c ->
         game (ui (step (@initialWorld Book.engine Book.zeros)
                        (Drop sourceSquare targetSquare))) = c
         /\ game (ui (run (@initialWorld Book.engine Book.zeros)
                          [Drop sourceSquare targetSquare; TimerFires 0])) = c'.
Proof.
  apply (@reply_is_made_from_position_before_drop Book.engine (initialWorld Book.zeros)).
  - reflexivity.
  - discriminate.
  - exact book_plays_start.
Defined.

(** X12. A reset cancels nothing and draws nothing: after the reset
    button or a difficulty button the pending calls and the random source
    are as before.  Resetting twice is resetting once, and the reset
    button after a difficulty button changes nothing more. *)
Theorem reset_keeps_timers {engine : ChessEngine} (w : World) (d : Difficulty) :
  timers (step w ClickReset) = timers w
  /\ entropy (step w ClickReset) = entropy w
  /\ timers (step w (ClickDifficulty d)) = timers w
  /\ entropy (step w (ClickDifficulty d)) = entropy w
  /\ step (step w ClickReset) ClickReset = step w ClickReset
  /\ step (step w (ClickDifficulty d)) ClickReset = step w (ClickDifficulty d).
Proof. repeat split. Qed.

(** X13. When the call that hides a hint fires, the hint is no longer
    shown; its text, the position, the difficulty and the random source
    stay, and that call alone leaves the pending ones. *)
Theorem hide_hint_fires {engine : ChessEngine} (w : World) (i : nat) :
  nth_error (timers w) i = Some HideHint ->
  ui (step w (TimerFires i))
  = mkState (game (ui w)) (difficulty (ui w)) false (hintMove (ui w))
  /\ entropy (step w (TimerFires i)) = entropy w
  /\ timers (step w (TimerFires i)) = firstn i (timers w) ++ skipn (S i) (timers w)
  /\ S (List.length (timers (step w (TimerFires i)))) = List.length (timers w).
Proof.
  intros Hnth. rewrite (step_TimerFires_HideHint w i Hnth).
  cbn [ui entropy timers]. repeat split.
  assert (Hi : (i < List.length (timers w))%nat) by (apply nth_error_Some; congruence).
  rewrite length_app, length_firstn, length_skipn. lia.
Qed.

Lemma hide_hint_fires_after_hint :
  ui (step (step (@initialWorld Book.engine Book.zeros) ClickHint) (TimerFires 0))
  = mkState newChess easy false (Some "a3"%string)
  /\ entropy (step (step (@initialWorld Book.engine Book.zeros) ClickHint) (TimerFires 0))
     = Js.mkEntropy Book.zeros 20
  /\ timers (step (step (@initialWorld Book.engine Book.zeros) ClickHint) (TimerFires 0)) = []
  /\ S (List.length
          (timers (step (step (@initialWorld Book.engine Book.zeros) ClickHint)
                        (TimerFires 0)))) = 1%nat.
Proof.
  apply (@hide_hint_fires Book.engine (step (initialWorld Book.zeros) ClickHint) 0).
  reflexivity.
Defined.

(** X14. The call that hides a hint is not cancelled by a later hint.
    When a hint is asked for twice and the call scheduled by the first
    request fires, the second hint is hidden with it, while the call
    scheduled by the second request is still pending. *)
Theorem first_hide_call_hides_second_hint {engine : ChessEngine} (w : World) :
  playsItsMoves (game (ui w)) ->
  showHint (ui (run w [ClickHint; ClickHint])) = true
  /\ showHint (ui (run w [ClickHint; ClickHint; TimerFires (List.length (timers w))])) = false
  /\ hintMove (ui (run w [ClickHint; ClickHint; TimerFires (List.length (timers w))]))
     = hintMove (ui (run w [ClickHint; ClickHint]))
  /\ timers (run w [ClickHint; ClickHint; TimerFires (List.length (timers w))])
     = timers w ++ [HideHint].
Proof.
  intros Hplays. cbn [run fold_left].
  destruct (findBestMove_returns (game (ui w)) 3 (entropy w) Hplays) as (r1 & Hrun1 & _).
  rewrite (step_ClickHint w), Hrun1.
  set (w1 := mkWorld _ _ _).
  destruct (findBestMove_returns (game (ui w1)) 3 (entropy w1) Hplays) as (r2 & Hrun2 & _).
  rewrite (step_ClickHint w1), Hrun2.
  set (w2 := mkWorld _ _ _).
  assert (Hnth : nth_error (timers w2) (List.length (timers w)) = Some HideHint).
  { cbn [w2 w1 timers]. rewrite nth_error_app1 by (rewrite length_app; simpl; lia).
    apply nth_error_last. }
  rewrite (step_TimerFires_HideHint w2 _ Hnth). cbn [ui showHint hintMove timers w2 w1].
  repeat split.
  rewrite <- app_assoc. cbn [app]. apply remove_at_length.
Qed.

Lemma first_hide_call_hides_second_hint_start :
  showHint (ui (run (@initialWorld Book.engine Book.zeros) [ClickHint; ClickHint])) = true
  /\ showHint (ui (run (@initialWorld Book.engine Book.zeros)
                       [ClickHint; ClickHint; TimerFires 0])) = false
  /\ hintMove (ui (run (@initialWorld Book.engine Book.zeros)
                       [ClickHint; ClickHint; TimerFires 0]))
     = hintMove (ui (run (@initialWorld Book.engine Book.zeros) [ClickHint; ClickHint]))
  /\ timers (run (@initialWorld Book.engine Book.zeros)
                 [ClickHint; ClickHint; TimerFires 0]) = [HideHint].
Proof.
  apply (@first_hide_call_hides_second_hint Book.engine (initialWorld Book.zeros)).
  exact book_plays_start.
Defined.

(** X15. The difficulty changes by a click on a difficulty button and
    by nothing else: a drop, a hint, the reset button and every timer
    leave it as it was. *)
Theorem difficulty_changes_by_its_buttons_only {engine : ChessEngine}
    (w : World) (ev : Event) :
  (forall d, ev <> ClickDifficulty d) ->
  difficulty (ui (step w ev)) = difficulty (ui w).
Proof.
  intros Hev. destruct ev as [src tgt| | |d|i].
  - rewrite step_Drop. now destruct (proposedMove (game (ui w)) src tgt).
  - rewrite step_ClickHint.
    now destruct (findBestMove (game (ui w)) 3 (entropy w)) as [[hint|] e'].
  - reflexivity.
  - exfalso. now apply (Hev d).
  - destruct (nth_error (timers w) i) as [[g d|]|] eqn:Hnth.
    + destruct (step_TimerFires_computer w i g d Hnth) as [e' [Hstep|(c & _ & Hstep)]];
        now rewrite Hstep.
    + now rewrite (step_TimerFires_HideHint w i Hnth).
    + unfold step. now rewrite Hnth.
Qed.

Lemma difficulty_changes_by_its_buttons_only_timer :
  difficulty (ui (step Book.dropThenReset (TimerFires 0))) = difficulty (ui Book.dropThenReset).
Proof.
  apply (@difficulty_changes_by_its_buttons_only Book.engine Book.dropThenReset (TimerFires 0)).
  discriminate.
Defined.

(** X16. The component never makes up a position.  After any events,
    the position it holds and the positions held by the pending opponent
    steps are each a new game, a copy loaded from the notation string of
    such a position, or such a position after a move the engine played. *)
Theorem reachable_positions_come_from_engine {engine : ChessEngine} (w : World) :
  reachable w ->
  derivable (game (ui w)) /\ Forall holdsDerivable (timers w).
Proof.
  intros (src & evs & ->). apply run_wellFormed.
  split; [apply derivable_new | constructor].
Qed.

Lemma reachable_positions_come_from_engine_reset :
  derivable (game (ui Book.dropThenReset))
  /\ Forall holdsDerivable (timers Book.dropThenReset).
Proof.
  apply (@reachable_positions_come_from_engine Book.engine Book.dropThenReset).
  exists Book.zeros, [Drop "e2" "e4"; ClickReset]. reflexivity.
Defined.

(** ** Further properties of the evaluator on binary64 numbers *)

(** X17. On a board of at most 64 pieces [evaluatePosition] loses
    nothing to rounding: the value it accumulates on binary64 numbers is
    the integer sum of the signed values of the pieces, which is at most
    576 in absolute value, and two such values compare as the integers
    do. *)
Theorem evaluatePosition_exact_on_binary64 {engine : ChessEngine} (game : Chess) :
  (List.length (occupiedSquares (board game)) <= 64)%nat ->
  Binary64.evaluatePosition game
  = Binary64.toNumber (sumZ (map signedValue (occupiedSquares (board game))))
  /\ Z.abs (sumZ (map signedValue (occupiedSquares (board game)))) <= 576
  /\ (forall other,
        (List.length (occupiedSquares (board other)) <= 64)%nat ->
        PrimFloat.leb (Binary64.evaluatePosition game) (Binary64.evaluatePosition other) = true ->
        evaluatePosition game <= evaluatePosition other).
Proof.
  intros Hlen.
  pose proof (Binary64Facts.sumZ_signedValue_bound (occupiedSquares (board game))) as Hsum.
  split; [|split].
  - rewrite (Binary64Facts.evaluatePosition_toNumber game Hlen).
    unfold evaluatePosition. now rewrite evaluateBoard_sum.
  - lia.
  - intros other Hother Hle.
    pose proof (Binary64Facts.sumZ_signedValue_bound (occupiedSquares (board other))) as Hsum'.
    rewrite (Binary64Facts.evaluatePosition_toNumber game Hlen),
      (Binary64Facts.evaluatePosition_toNumber other Hother) in Hle.
    unfold evaluatePosition in *. rewrite !evaluateBoard_sum in *.
    apply Binary64Facts.toNumber_leb_inv in Hle; lia.
Qed.

Lemma evaluatePosition_exact_on_binary64_start :
  @Binary64.evaluatePosition Book.engine Book.startFen
  = Binary64.toNumber
      (sumZ (map signedValue (occupiedSquares (@board Book.engine Book.startFen))))
  /\ Z.abs (sumZ (map signedValue (occupiedSquares (@board Book.engine Book.startFen)))) <= 576
  /\ (forall other,
        (List.length (occupiedSquares (@board Book.engine other)) <= 64)%nat ->
        PrimFloat.leb (@Binary64.evaluatePosition Book.engine Book.startFen)
                      (@Binary64.evaluatePosition Book.engine other) = true ->
        @evaluatePosition Book.engine Book.startFen <= @evaluatePosition Book.engine other).
Proof.
  apply (@evaluatePosition_exact_on_binary64 Book.engine Book.startFen).
  apply Nat.leb_le. vm_compute. reflexivity.
Defined.
